(** * dancecoach: the pose-comparison and smoothing core

    A shallow embedding of [src/utils/PoseComparison.ts],
    [src/utils/LandmarkSmoother.ts] and [src/utils/ScoreSmoother.ts], of the
    region and colour functions and the trail bookkeeping of
    [src/utils/SkeletonRenderer.ts], of the data path of the detection loop
    of [src/components/CameraFeed.tsx], and of the score helpers of
    [src/App.tsx].

    JavaScript numbers are modelled as real numbers ([R]): arithmetic is
    exact, there is no rounding, no infinity and no NaN.  [Math.sqrt],
    [Math.acos], [Math.abs] and [Math.PI] are the Standard Library's [sqrt],
    [acos], [Rabs] and [PI]; [Math.atan2] is built from [atan].  Objects used
    as dictionaries ([Record<string, number>]) are [gmap string R]; arrays are
    lists, and an index read [arr[i]] is the partial lookup [arr !! i], whose
    [None] stands for JavaScript's [undefined]. *)

From Stdlib Require Import Reals Lra.
From stdpp Require Import gmap strings list fin_maps.

#[local] Open Scope R_scope.

(** Comparisons of numbers as decidable propositions, so that the source's
    [if (diff < 15)] reads [if decide (diff < 15)]. *)
#[global] Instance Rlt_decision : RelDecision Rlt := Rlt_dec.
#[global] Instance Rle_decision : RelDecision Rle := Rle_dec.
#[global] Instance Req_decision : EqDecision R := Req_dec_T.

(** [v ?? d]: the fallback [d] when [v] is [undefined], else [v]. *)
Definition nullish {A : Type} (v : option A) (d : A) : A :=
  match v with
  | Some a => a
  | None => d
  end.

(** [NormalizedLandmark] of [@mediapipe/tasks-vision].  The coordinates are
    numbers (LandmarkSmoother multiplies [lm.z] directly, so on them
    [a.z ?? 0] is just [a.z]); [visibility] is only ever read through
    [?? 0] or copied, and is kept optional. *)
Record NormalizedLandmark : Type := mkLandmark {
  x : R;
  y : R;
  z : R;
  visibility : option R;
}.

(** [Math.atan2(y, x)] on real numbers: the angle of the point [(x, y)] in
    (-PI, PI].  Zeros carry no sign here, and the origin is sent to 0. *)
Definition atan2 (y x : R) : R :=
  if decide (0 < x) then atan (y / x)
  else if decide (x < 0) then
    if decide (0 <= y) then atan (y / x) + PI else atan (y / x) - PI
  else if decide (0 < y) then PI / 2
  else if decide (y < 0) then - (PI / 2)
  else 0.

(** ** PoseComparison.ts *)

Module PoseComparison.

Inductive Region : Type := leftArm | rightArm | leftLeg | rightLeg | torso.

(** A [Region] is a string in the source; this is that string, used as the
    key of [regionBuckets] and [regionScores]. *)
Definition region_key (r : Region) : string :=
  match r with
  | leftArm => "leftArm"
  | rightArm => "rightArm"
  | leftLeg => "leftLeg"
  | rightLeg => "rightLeg"
  | torso => "torso"
  end.

Record AngleComparison : Type := mkAngleComparison {
  name : string;
  refAngle : R;
  userAngle : R;
  diff : R;
  score : R;
  region : Region;
}.

Record PoseComparisonResult : Type := mkResult {
  angles : list AngleComparison;
  overallScore : R;
  regionScores : gmap string R;
}.

(** [calculateAngle], lines 23-39: the angle at joint [b], in degrees. *)
Definition calculateAngle (a b c : NormalizedLandmark) : R :=
  let ba_x := x a - x b in
  let ba_y := y a - y b in
  let ba_z := z a - z b in
  let bc_x := x c - x b in
  let bc_y := y c - y b in
  let bc_z := z c - z b in
  let dot := ba_x * bc_x + ba_y * bc_y + ba_z * bc_z in
  let magBA := sqrt (ba_x ^ 2 + ba_y ^ 2 + ba_z ^ 2) in
  let magBC := sqrt (bc_x ^ 2 + bc_y ^ 2 + bc_z ^ 2) in
  if bool_decide (magBA = 0) || bool_decide (magBC = 0) then 0
  else
    let cosAngle := Rmax (-1) (Rmin 1 (dot / (magBA * magBC))) in
    (acos cosAngle * 180) / PI.

(** [calculateTorsoLean], lines 44-62. *)
Definition calculateTorsoLean (landmarks : list NormalizedLandmark) : R :=
  match landmarks !! 11%nat, landmarks !! 12%nat,
        landmarks !! 23%nat, landmarks !! 24%nat with
  | Some lShoulder, Some rShoulder, Some lHip, Some rHip =>
      let midShoulderX := (x lShoulder + x rShoulder) / 2 in
      let midShoulderY := (y lShoulder + y rShoulder) / 2 in
      let midHipX := (x lHip + x rHip) / 2 in
      let midHipY := (y lHip + y rHip) / 2 in
      let dx := midShoulderX - midHipX in
      let dy := midShoulderY - midHipY in
      Rabs (atan2 dx (- dy) * (180 / PI))
  | _, _, _, _ => 0
  end.

Record AngleDefinition : Type := mkAngleDefinition {
  def_name : string;
  indices : nat * nat * nat;
  def_region : Region;
}.

(** [ANGLE_DEFINITIONS], lines 65-82. *)
Definition ANGLE_DEFINITIONS : list AngleDefinition :=
  [ mkAngleDefinition "Left Elbow" (11, 13, 15)%nat leftArm;
    mkAngleDefinition "Right Elbow" (12, 14, 16)%nat rightArm;
    mkAngleDefinition "Left Shoulder" (13, 11, 23)%nat leftArm;
    mkAngleDefinition "Right Shoulder" (14, 12, 24)%nat rightArm;
    mkAngleDefinition "Left Knee" (23, 25, 27)%nat leftLeg;
    mkAngleDefinition "Right Knee" (24, 26, 28)%nat rightLeg;
    mkAngleDefinition "Left Hip" (11, 23, 25)%nat leftLeg;
    mkAngleDefinition "Right Hip" (12, 24, 26)%nat rightLeg ].

(** [scoreAngle], lines 91-96. *)
Definition scoreAngle (diff : R) : R :=
  if decide (diff < 15) then 1.0
  else if decide (diff < 30) then 1.0 - ((diff - 15) / 15) * 0.5
  else if decide (diff < 60) then 0.5 - ((diff - 30) / 30) * 0.5
  else 0.0.

Definition MIN_VISIBILITY : R := 0.5.

(** [landmarkVisible], lines 100-102. *)
Definition landmarkVisible (lm : option NormalizedLandmark) : bool :=
  match lm with
  | None => false
  | Some l => bool_decide (MIN_VISIBILITY <= nullish (visibility l) 0)
  end.

(** The body of the loop over [ANGLE_DEFINITIONS], lines 116-149: one
    definition either pushes its comparison onto [angles] or is skipped. *)
Definition angleStep (refLandmarks userLandmarks : list NormalizedLandmark)
    (angles : list AngleComparison) (def : AngleDefinition)
    : list AngleComparison :=
  let '(a, b, c) := indices def in
  let refA := refLandmarks !! a in
  let refB := refLandmarks !! b in
  let refC := refLandmarks !! c in
  let userA := userLandmarks !! a in
  let userB := userLandmarks !! b in
  let userC := userLandmarks !! c in
  if negb (landmarkVisible refA) || negb (landmarkVisible refB)
     || negb (landmarkVisible refC) || negb (landmarkVisible userA)
     || negb (landmarkVisible userB) || negb (landmarkVisible userC)
  then angles
  else
    match refA, refB, refC, userA, userB, userC with
    | Some rA, Some rB, Some rC, Some uA, Some uB, Some uC =>
        let refAngle := calculateAngle rA rB rC in
        let userAngle := calculateAngle uA uB uC in
        let diff := Rabs (refAngle - userAngle) in
        angles ++ [ mkAngleComparison (def_name def) refAngle userAngle diff
                      (scoreAngle diff) (def_region def) ]
    | _, _, _, _, _, _ => angles (* not reached: an undefined landmark is not visible *)
    end.

(** Lines 114-162: the loop, then the torso-lean entry. *)
Definition collectAngles (refLandmarks userLandmarks : list NormalizedLandmark)
    : list AngleComparison :=
  let angles := fold_left (angleStep refLandmarks userLandmarks)
                  ANGLE_DEFINITIONS [] in
  let refLean := calculateTorsoLean refLandmarks in
  let userLean := calculateTorsoLean userLandmarks in
  let leanDiff := Rabs (refLean - userLean) in
  angles ++ [ mkAngleComparison "Torso Lean" refLean userLean leanDiff
                (scoreAngle leanDiff) torso ].

(** The body of the loop of lines 168-171. *)
Definition bucketStep (regionBuckets : gmap string (list R))
    (a : AngleComparison) : gmap string (list R) :=
  let key := region_key (region a) in
  let regionBuckets :=
    match regionBuckets !! key with
    | None => <[key := []]> regionBuckets
    | Some _ => regionBuckets
    end in
  alter (fun scores => scores ++ [score a]) key regionBuckets.

(** [scores.reduce((sum, s) => sum + s, 0) / scores.length], line 175. *)
Definition averageOf (scores : list R) : R :=
  fold_left (fun sum s => sum + s) scores 0 / INR (length scores).

(** Lines 164-182: the empty check and the aggregation. *)
Definition aggregate (angles : list AngleComparison)
    : option PoseComparisonResult :=
  if decide (length angles = 0%nat) then None
  else
    let regionBuckets := fold_left bucketStep angles ∅ in
    let regionScores := averageOf <$> regionBuckets in
    let overallScore :=
      (fold_left (fun sum a => sum + score a) angles 0
       / INR (length angles)) * 100 in
    Some (mkResult angles overallScore regionScores).

(** [comparePoses], lines 108-183. *)
Definition comparePoses (refLandmarks userLandmarks : list NormalizedLandmark)
    : option PoseComparisonResult :=
  if bool_decide (length refLandmarks < 33)%nat
     || bool_decide (length userLandmarks < 33)%nat
  then None
  else aggregate (collectAngles refLandmarks userLandmarks).

End PoseComparison.

(** ** LandmarkSmoother.ts *)

Module LandmarkSmoother.

Record t : Type := mkSmoother {
  previous : option (list NormalizedLandmark);
  alpha : R;
}.

(** The constructor, lines 15-17; the source's default [alpha] is 0.35. *)
Definition new (alpha : R) : t := mkSmoother None alpha.

(** The callback of [landmarks.map] at lines 25-33.  Reading a field of
    [this.previous![i]] when that entry is [undefined] throws; [None] is
    that fault. *)
Definition smoothPoint (alpha : R) (previous : list NormalizedLandmark)
    (i : nat) (lm : NormalizedLandmark) : option NormalizedLandmark :=
  match previous !! i with
  | None => None
  | Some prev =>
      Some {| x := alpha * x lm + (1 - alpha) * x prev;
              y := alpha * y lm + (1 - alpha) * y prev;
              z := alpha * z lm + (1 - alpha) * z prev;
              visibility := visibility lm |}
  end.

(** [smooth], lines 19-37.  The result is the smoother after the call and
    the returned array; [None] is a thrown fault.  The spread copies
    [{ ...lm }] are value copies, i.e. the identity here. *)
Definition smooth (s : t) (landmarks : list NormalizedLandmark)
    : option (t * list NormalizedLandmark) :=
  match previous s with
  | Some prev =>
      if decide (length prev ≠ length landmarks)
      then Some (mkSmoother (Some landmarks) (alpha s), landmarks)
      else
        match mapM (fun p => p) (imap (smoothPoint (alpha s) prev) landmarks) with
        | None => None
        | Some smoothed => Some (mkSmoother (Some smoothed) (alpha s), smoothed)
        end
  | None => Some (mkSmoother (Some landmarks) (alpha s), landmarks)
  end.

(** [reset], lines 39-41. *)
Definition reset (s : t) : t := mkSmoother None (alpha s).

End LandmarkSmoother.

(** ** ScoreSmoother.ts *)

Module ScoreSmoother.

Record t : Type := mkSmoother {
  smoothedRegions : gmap string R;
  smoothedOverall : R;
  hasData : bool;
  alpha : R;
}.

(** The field initialisers and the constructor, lines 6-17; the source's
    default [alpha] is 0.12. *)
Definition new (alpha : R) : t := mkSmoother ∅ 0 false alpha.

(** What [update] returns. *)
Record Smoothed : Type := mkSmoothed {
  regions : gmap string R;
  overall : R;
}.

(** The body of the loop over [Object.keys(regionScores)], lines 30-33;
    [value] is [regionScores[key]]. *)
Definition emaStep (alpha : R) (key : string) (value : R)
    (smoothedRegions : gmap string R) : gmap string R :=
  let prev := nullish (smoothedRegions !! key) value in
  <[key := alpha * value + (1 - alpha) * prev]> smoothedRegions.

(** [update], lines 19-41: the smoother after the call and the returned
    object (whose [regions] is a copy of the stored mapping). *)
Definition update (s : t) (regionScores : gmap string R) (overallScore : R)
    : t * Smoothed :=
  let s' :=
    if negb (hasData s)
    then mkSmoother regionScores overallScore true (alpha s)
    else mkSmoother
           (map_fold (emaStep (alpha s)) (smoothedRegions s) regionScores)
           (alpha s * overallScore + (1 - alpha s) * smoothedOverall s)
           (hasData s) (alpha s) in
  (s', mkSmoothed (smoothedRegions s') (smoothedOverall s')).

(** [reset], lines 43-47. *)
Definition reset (s : t) : t := mkSmoother ∅ 0 false (alpha s).

End ScoreSmoother.

(** ** SkeletonRenderer.ts *)

Module SkeletonRenderer.

(** [POSE_CONNECTIONS], lines 5-28. *)
Definition POSE_CONNECTIONS : list (nat * nat) :=
  [ (0, 1); (1, 2); (2, 3); (3, 7);
    (0, 4); (4, 5); (5, 6); (6, 8);
    (9, 10);
    (11, 12);
    (11, 23); (12, 24);
    (23, 24);
    (11, 13); (13, 15);
    (15, 17); (15, 19); (15, 21);
    (17, 19);
    (12, 14); (14, 16);
    (16, 18); (16, 20); (16, 22);
    (18, 20);
    (23, 25); (25, 27);
    (27, 29); (27, 31); (29, 31);
    (24, 26); (26, 28);
    (28, 30); (28, 32); (30, 32) ]%nat.

(** [array.includes(idx)] on an array of indices. *)
Definition includes (array : list nat) (idx : nat) : bool :=
  bool_decide (idx ∈ array).

(** [getLandmarkRegion], lines 41-48. *)
Definition getLandmarkRegion (idx : nat) : string :=
  if bool_decide (idx <= 10)%nat then "face"
  else if includes [11; 13; 15; 17; 19; 21]%nat idx then "leftArm"
  else if includes [12; 14; 16; 18; 20; 22]%nat idx then "rightArm"
  else if includes [23; 25; 27; 29; 31]%nat idx then "leftLeg"
  else if includes [24; 26; 28; 30; 32]%nat idx then "rightLeg"
  else "torso".

(** [getConnectionRegion], lines 50-64; an inner [if] without [else] falls
    through to the next test, which is the conjunction written here. *)
Definition getConnectionRegion (start end' : nat) : string :=
  if bool_decide (start <= 10)%nat && bool_decide (end' <= 10)%nat
  then "face"
  else if includes [11; 12; 23; 24]%nat start
          && includes [11; 12; 23; 24]%nat end'
  then "torso"
  else if (includes [11; 13; 15; 17; 19; 21]%nat start
           || includes [11; 13; 15; 17; 19; 21]%nat end')
          && (bool_decide (11 <= start)%nat && bool_decide (11 <= end')%nat
              && bool_decide (start <= 21)%nat && bool_decide (end' <= 21)%nat
              && (bool_decide (start mod 2 ≠ 0)%nat
                  || bool_decide (start = 11)%nat))
  then "leftArm"
  else if (includes [12; 14; 16; 18; 20; 22]%nat start
           || includes [12; 14; 16; 18; 20; 22]%nat end')
          && (bool_decide (12 <= start)%nat && bool_decide (12 <= end')%nat
              && bool_decide (start <= 22)%nat && bool_decide (end' <= 22)%nat
              && (bool_decide (start mod 2 = 0)%nat
                  || bool_decide (start = 12)%nat))
  then "rightArm"
  else if (bool_decide (23 <= start)%nat && bool_decide (23 <= end')%nat)
          && (includes [23; 25; 27; 29; 31]%nat start
              && includes [23; 25; 27; 29; 31]%nat end')
  then "leftLeg"
  else if (bool_decide (23 <= start)%nat && bool_decide (23 <= end')%nat)
          && (includes [24; 26; 28; 30; 32]%nat start
              && includes [24; 26; 28; 30; 32]%nat end')
  then "rightLeg"
  else "torso".



Definition TRAIL_BUFFER_SIZE : nat := 3.

(** The trail bookkeeping of [drawSkeleton], lines 117-133, on the module's
    [trailBuffers] map: get or create the buffer of [trailId], push the
    pixel positions of the current frame, and drop the oldest frame when
    more than [TRAIL_BUFFER_SIZE] are held.  Pushing mutates the array stored
    in the map, hence the final insert. *)
Definition recordTrail (trailBuffers : gmap string (list (list (R * R))))
    (landmarks : list NormalizedLandmark) (width height : R)
    (trailId : string) : gmap string (list (list (R * R))) :=
  let trailBuffers :=
    match trailBuffers !! trailId with
    | None => <[trailId := []]> trailBuffers
    | Some _ => trailBuffers
    end in
  let trailBuffer := nullish (trailBuffers !! trailId) [] in
  let currentPositions :=
    (fun lm => (x lm * width, y lm * height)) <$> landmarks in
  let trailBuffer := trailBuffer ++ [currentPositions] in
  let trailBuffer :=
    if bool_decide (TRAIL_BUFFER_SIZE < length trailBuffer)%nat
    then tail trailBuffer else trailBuffer in
  <[trailId := trailBuffer]> trailBuffers.

End SkeletonRenderer.

(** ** App.tsx *)

Module App.


(** [getScoreGlow], lines 13-17. *)
Definition getScoreGlow (score : R) : string :=
  if decide (80 <= score)
  then "0 0 20px rgba(0,255,136,0.4), 0 0 40px rgba(0,255,136,0.15)"
  else if decide (50 <= score)
  then "0 0 20px rgba(255,170,0,0.4), 0 0 40px rgba(255,170,0,0.15)"
  else "0 0 20px rgba(255,45,68,0.4), 0 0 40px rgba(255,45,68,0.15)".

(** [getScoreBorderColor], lines 19-23. *)
Definition getScoreBorderColor (score : R) : string :=
  if decide (80 <= score) then "rgba(0,255,136,0.3)"
  else if decide (50 <= score) then "rgba(255,170,0,0.3)"
  else "rgba(255,45,68,0.3)".

(** One turn of [lerpLoop], lines 55-71, on the two refs: from
    [targetScoreRef.current] and [displayScoreRef.current] ([None] is
    [null]) to the new [displayScoreRef.current]. *)
Definition lerpLoop (target current : option R) : option R :=
  match target with
  | None => None
  | Some target =>
      match current with
      | None => Some target
      | Some current => Some (current + (target - current) * 0.15)
      end
  end.

End App.

(** ** CameraFeed.tsx *)

Module CameraFeed.

(** The timestamp handed to the detector, lines 134-137: from
    [performance.now()] and [lastTimestampRef.current] to the new
    [lastTimestampRef.current]. *)
Definition nextTimestamp (now lastTimestamp : R) : R :=
  if decide (lastTimestamp < now) then now else lastTimestamp + 1.

(** The frame-rate window, lines 178-180: push [now], keep the times of
    the last second; the reported rate is the length of the result. *)
Definition fpsUpdate (fpsFrames : list R) (now : R) : list R :=
  let fpsFrames := fpsFrames ++ [now] in
  let oneSecAgo := now - 1000 in
  filter (fun t => oneSecAgo < t) fpsFrames.

(** The two smoothers held by the component, lines 32-33. *)
Record Smoothers : Type := mkSmoothers {
  landmarkSmoother : LandmarkSmoother.t;
  scoreSmoother : ScoreSmoother.t;
}.

Definition initial : Smoothers :=
  mkSmoothers (LandmarkSmoother.new 0.35) (ScoreSmoother.new 0.12).

(** The session stop of lines 100-101. *)
Definition stop (st : Smoothers) : Smoothers :=
  mkSmoothers (LandmarkSmoother.reset (landmarkSmoother st))
    (ScoreSmoother.reset (scoreSmoother st)).

(** What one frame hands on: the argument of [onComparisonUpdate], and the
    [regionScores] argument of [drawSkeleton] ([None] when it is [undefined]
    or when the canvas is only cleared). *)
Record FrameOutput : Type := mkFrameOutput {
  comparisonUpdate : option PoseComparison.PoseComparisonResult;
  drawnScores : option (gmap string R);
}.

(** The data path of the detection loop, lines 142-175, with a canvas
    context at hand: [detected] is [result.landmarks] of the detector, or
    [None] when it returned [null]; [refLm] is [refLandmarksRef.current].
    [None] as a whole is a thrown fault. *)
Definition processFrame (st : Smoothers)
    (refLm : option (list NormalizedLandmark))
    (detected : option (list (list NormalizedLandmark)))
    : option (Smoothers * FrameOutput) :=
  match detected with
  | Some (rawLandmarks :: _) =>
      match LandmarkSmoother.smooth (landmarkSmoother st) rawLandmarks with
      | None => None
      | Some (ls, userLandmarks) =>
          match refLm with
          | Some refLm =>
              match PoseComparison.comparePoses refLm userLandmarks with
              | Some comparison =>
                  let '(ss, smoothed) :=
                    ScoreSmoother.update (scoreSmoother st)
                      (PoseComparison.regionScores comparison)
                      (PoseComparison.overallScore comparison) in
                  Some (mkSmoothers ls ss,
                        mkFrameOutput
                          (Some (PoseComparison.mkResult
                                   (PoseComparison.angles comparison)
                                   (ScoreSmoother.overall smoothed)
                                   (ScoreSmoother.regions smoothed)))
                          (Some (ScoreSmoother.regions smoothed)))
              | None =>
                  Some (mkSmoothers ls (scoreSmoother st),
                        mkFrameOutput None None)
              end
          | None =>
              Some (mkSmoothers ls (scoreSmoother st), mkFrameOutput None None)
          end
      end
  | _ => Some (st, mkFrameOutput None None)
  end.

End CameraFeed.

(** ** Specification-side notions *)

(** The straight line through [(x0, y0)] and [(x1, y1)], evaluated at [d]:
    the linear interpolation from [y0] at [x0] to [y1] at [x1]. *)
Definition lerp (x0 y0 x1 y1 d : R) : R :=
  y0 + (y1 - y0) * ((d - x0) / (x1 - x0)).

(** The arithmetic mean of a list of numbers. *)
Definition mean (l : list R) : R :=
  foldr Rplus 0 l / INR (length l).

(** The length of the ray from [p] to [q]. *)
Definition ray_magnitude (p q : NormalizedLandmark) : R :=
  sqrt ((x q - x p) ^ 2 + (y q - y p) ^ 2 + (z q - z p) ^ 2).

(** The cosine of the angle at [b], before it is clamped. *)
Definition ray_cosine (a b c : NormalizedLandmark) : R :=
  ((x a - x b) * (x c - x b) + (y a - y b) * (y c - y b)
   + (z a - z b) * (z c - z b))
  / (ray_magnitude b a * ray_magnitude b c).

#[global] Instance Region_eq_dec : EqDecision PoseComparison.Region.
Proof. solve_decision. Defined.


(** The same, by the key under which the source files the scores. *)
Definition filedUnder (k : string)
    (angles : list PoseComparison.AngleComparison) : list R :=
  PoseComparison.score
    <$> filter (fun a => PoseComparison.region_key (PoseComparison.region a) = k)
          angles.

(** All three landmarks of a catalog angle are visible in both sets. *)
Definition allVisible (refLandmarks userLandmarks : list NormalizedLandmark)
    (def : PoseComparison.AngleDefinition) : Prop :=
  let '(a, b, c) := PoseComparison.indices def in
  forall i, i = a \/ i = b \/ i = c ->
    PoseComparison.landmarkVisible (refLandmarks !! i) = true /\
    PoseComparison.landmarkVisible (userLandmarks !! i) = true.

(** One point of the positional smoother, in the specification's words:
    each coordinate is [alpha * raw + (1 - alpha) * previous], and the
    visibility is the raw frame's. *)
Definition blend (alpha : R) (raw prev : NormalizedLandmark)
    : NormalizedLandmark :=
  {| x := alpha * x raw + (1 - alpha) * x prev;
     y := alpha * y raw + (1 - alpha) * y prev;
     z := alpha * z raw + (1 - alpha) * z prev;
     visibility := visibility raw |}.

(** ** Sample frames *)

(** An upright figure seen from the front, reduced to two heights: the 17
    landmarks of the head, shoulders and arms at y = 0.25, the 16 of the
    hips and legs at y = 0.75, every one with the visibility [v]. *)
Definition uprightPose (v : R) : list NormalizedLandmark :=
  replicate 17 (mkLandmark 0.5 0.25 0 (Some v))
  ++ replicate 16 (mkLandmark 0.5 0.75 0 (Some v)).

(** The same figure with no landmark detected confidently. *)
Definition hiddenPose : list NormalizedLandmark := uprightPose 0.

(** The figure fully visible except for both hips (landmarks 23 and 24). *)
Definition hipsHiddenPose : list NormalizedLandmark :=
  <[23%nat := mkLandmark 0.5 0.75 0 (Some 0.1)]>
    (<[24%nat := mkLandmark 0.5 0.75 0 (Some 0.1)]> (uprightPose 1)).

(** A fully visible figure followed by one extra landmark: 34 entries. *)
Definition longPose : list NormalizedLandmark :=
  uprightPose 1 ++ [mkLandmark 0 0 0 (Some 1)].

(** Three scored angles of one frame: two of the left arm that match, and
    a torso lean that does not. *)
Definition lopsidedAngles : list PoseComparison.AngleComparison :=
  [ PoseComparison.mkAngleComparison "Left Elbow" 90 90 0 1
      PoseComparison.leftArm;
    PoseComparison.mkAngleComparison "Left Shoulder" 40 40 0 1
      PoseComparison.leftArm;
    PoseComparison.mkAngleComparison "Torso Lean" 0 75 75 0
      PoseComparison.torso ].

(** ** Transformations of a frame *)

(** A landmark moved by the vector [(dx, dy, dz)]. *)
Definition translate (dx dy dz : R) (p : NormalizedLandmark)
    : NormalizedLandmark :=
  mkLandmark (x p + dx) (y p + dy) (z p + dz) (visibility p).

(** A landmark scaled by [k] about the origin. *)
Definition scale (k : R) (p : NormalizedLandmark) : NormalizedLandmark :=
  mkLandmark (k * x p) (k * y p) (k * z p) (visibility p).

(** A landmark of the horizontally flipped image. *)
Definition mirror (p : NormalizedLandmark) : NormalizedLandmark :=
  mkLandmark (1 - x p) (y p) (z p) (visibility p).

(** The dot product of the rays from [b] to [a] and from [b] to [c]. *)
Definition ray_dot (a b c : NormalizedLandmark) : R :=
  (x a - x b) * (x c - x b) + (y a - y b) * (y c - y b)
  + (z a - z b) * (z c - z b).

(** ** The angle list, entry by entry *)

(** What one catalog definition contributes to the angle list: its
    comparison when its three landmarks exist and are visible in both sets,
    nothing otherwise. *)
Definition measured (refLandmarks userLandmarks : list NormalizedLandmark)
    (def : PoseComparison.AngleDefinition)
    : option PoseComparison.AngleComparison :=
  let '(a, b, c) := PoseComparison.indices def in
  match refLandmarks !! a, refLandmarks !! b, refLandmarks !! c,
        userLandmarks !! a, userLandmarks !! b, userLandmarks !! c with
  | Some rA, Some rB, Some rC, Some uA, Some uB, Some uC =>
      if PoseComparison.landmarkVisible (Some rA)
         && PoseComparison.landmarkVisible (Some rB)
         && PoseComparison.landmarkVisible (Some rC)
         && PoseComparison.landmarkVisible (Some uA)
         && PoseComparison.landmarkVisible (Some uB)
         && PoseComparison.landmarkVisible (Some uC)
      then
        let refAngle := PoseComparison.calculateAngle rA rB rC in
        let userAngle := PoseComparison.calculateAngle uA uB uC in
        let diff := Rabs (refAngle - userAngle) in
        Some (PoseComparison.mkAngleComparison (PoseComparison.def_name def)
                refAngle userAngle diff (PoseComparison.scoreAngle diff)
                (PoseComparison.def_region def))
      else None
  | _, _, _, _, _, _ => None
  end.

(** The torso-lean entry of a pair of sets. *)
Definition torsoLeanEntry (refLandmarks userLandmarks : list NormalizedLandmark)
    : PoseComparison.AngleComparison :=
  let refLean := PoseComparison.calculateTorsoLean refLandmarks in
  let userLean := PoseComparison.calculateTorsoLean userLandmarks in
  PoseComparison.mkAngleComparison "Torso Lean" refLean userLean
    (Rabs (refLean - userLean))
    (PoseComparison.scoreAngle (Rabs (refLean - userLean)))
    PoseComparison.torso.

(** An entry whose fields fit together: two angles between 0 and 180
    degrees, their absolute difference, and the score of that difference. *)
Definition consistent (e : PoseComparison.AngleComparison) : Prop :=
  0 <= PoseComparison.refAngle e <= 180 /\
  0 <= PoseComparison.userAngle e <= 180 /\
  PoseComparison.diff e
  = Rabs (PoseComparison.refAngle e - PoseComparison.userAngle e) /\
  PoseComparison.score e = PoseComparison.scoreAngle (PoseComparison.diff e).

(** An entry with the two sides exchanged. *)
Definition swapSides (e : PoseComparison.AngleComparison)
    : PoseComparison.AngleComparison :=
  PoseComparison.mkAngleComparison (PoseComparison.name e)
    (PoseComparison.userAngle e) (PoseComparison.refAngle e)
    (PoseComparison.diff e) (PoseComparison.score e)
    (PoseComparison.region e).

(** The names an angle list can hold, in the order of the code. *)
Definition angleNames : list string :=
  (PoseComparison.def_name <$> PoseComparison.ANGLE_DEFINITIONS)
  ++ ["Torso Lean"%string].

(** The landmarks that the catalog and the torso lean refer to: shoulders,
    elbows, wrists, hips, knees and ankles. *)
Definition comparedJoints : list nat :=
  [11; 12; 13; 14; 15; 16; 23; 24; 25; 26; 27; 28]%nat.

(** ** Repeated calls *)

(** [n] calls of [smooth] in a row with the same raw set: the smoother
    after the last call, or [None] if a call faulted. *)
Fixpoint smoothTimes (n : nat) (s : LandmarkSmoother.t)
    (landmarks : list NormalizedLandmark) : option LandmarkSmoother.t :=
  match n with
  | O => Some s
  | S n =>
      match LandmarkSmoother.smooth s landmarks with
      | None => None
      | Some (s', _) => smoothTimes n s' landmarks
      end
  end.

(** [n] calls of [update] in a row with the same scores: the smoother after
    the last call. *)
Fixpoint updateTimes (n : nat) (s : ScoreSmoother.t)
    (regionScores : gmap string R) (overallScore : R) : ScoreSmoother.t :=
  match n with
  | O => s
  | S n =>
      updateTimes n (ScoreSmoother.update s regionScores overallScore).1
        regionScores overallScore
  end.

(** ** The frame loop, frame after frame *)

(** The timestamps handed to the detector over the frames whose clock
    readings are [nows], starting from [lastTimestamp]. *)
Fixpoint timestamps (lastTimestamp : R) (nows : list R) : list R :=
  match nows with
  | [] => []
  | now :: nows =>
      let timestamp := CameraFeed.nextTimestamp now lastTimestamp in
      timestamp :: timestamps timestamp nows
  end.

(** Clock readings that never go back. *)
Definition nondecreasing (l : list R) : Prop :=
  forall i j a b, (i <= j)%nat -> l !! i = Some a -> l !! j = Some b -> a <= b.

(** The states of the two smoothers that a session can be in: the initial
    one, and those reached by frames and stops. *)
Inductive reachable : CameraFeed.Smoothers -> Prop :=
  | reachable_initial : reachable CameraFeed.initial
  | reachable_stop st : reachable st -> reachable (CameraFeed.stop st)
  | reachable_frame st refLm detected st' out :
      reachable st ->
      CameraFeed.processFrame st refLm detected = Some (st', out) ->
      reachable st'.

(** [n] turns of [lerpLoop] under a constant target. *)
Fixpoint lerpTimes (n : nat) (target current : option R) : option R :=
  match n with
  | O => current
  | S n => lerpTimes n target (App.lerpLoop target current)
  end.

(** What holds of the smoothers throughout a session: the two factors
    are those of the component, every region score held is a number between
    0 and 1 filed under one of the five regions, and a primed score smoother
    holds an overall score between 0 and 100. *)
Definition sessionInvariant (st : CameraFeed.Smoothers) : Prop :=
  LandmarkSmoother.alpha (CameraFeed.landmarkSmoother st) = 0.35 /\
  ScoreSmoother.alpha (CameraFeed.scoreSmoother st) = 0.12 /\
  (forall key v,
     ScoreSmoother.smoothedRegions (CameraFeed.scoreSmoother st) !! key = Some v ->
     0 <= v <= 1 /\ exists r, key = PoseComparison.region_key r) /\
  (ScoreSmoother.hasData (CameraFeed.scoreSmoother st) = true ->
   0 <= ScoreSmoother.smoothedOverall (CameraFeed.scoreSmoother st) <= 100).

(** * Properties *)

Import PoseComparison.

Ltac score_cases :=
  unfold scoreAngle, lerp; repeat case_decide; try lra.

Lemma scoreAngle_below_15 d : d < 15 -> scoreAngle d = 1.
Proof. intros; score_cases. Qed.

Lemma scoreAngle_15_30 d :
  15 <= d < 30 -> scoreAngle d = lerp 15 1 30 0.5 d.
Proof. intros; score_cases. Qed.

Lemma scoreAngle_30_60 d :
  30 <= d < 60 -> scoreAngle d = lerp 30 0.5 60 0 d.
Proof. intros; score_cases. Qed.

Lemma scoreAngle_from_60 d : 60 <= d -> scoreAngle d = 0.
Proof. intros; score_cases. Qed.

Lemma scoreAngle_range d : 0 <= scoreAngle d <= 1.
Proof. score_cases. Qed.

Lemma scoreAngle_antitone d1 d2 :
  d1 <= d2 -> scoreAngle d2 <= scoreAngle d1.
Proof. intros; score_cases. Qed.

(** C1: for every non-negative [d], [scoreAngle d] is 1 below 15, the line
    from 1 (at 15) down to 0.5 (at 30) on [15, 30), the line from 0.5 (at
    30) down to 0 (at 60) on [30, 60), and 0 from 60 on; it is 1 at 0 and at
    15, 0.5 at 30 and 0 at 60; it lies in [0, 1]; and it does not increase
    when [d] grows.  [scoreAngle] is a total function. *)
Theorem scoreAngle_piecewise_linear (d : R) (Hd : 0 <= d) :
  (d < 15 -> scoreAngle d = 1.0) /\
  (15 <= d < 30 -> scoreAngle d = lerp 15 1.0 30 0.5 d) /\
  (30 <= d < 60 -> scoreAngle d = lerp 30 0.5 60 0.0 d) /\
  (60 <= d -> scoreAngle d = 0.0) /\
  scoreAngle 0 = 1.0 /\ scoreAngle 15 = 1.0 /\
  scoreAngle 30 = 0.5 /\ scoreAngle 60 = 0.0 /\
  0 <= scoreAngle d <= 1 /\
  (forall d', d <= d' -> scoreAngle d' <= scoreAngle d).
Proof.
  repeat split; intros; score_cases.
Qed.

Lemma scoreAngle_piecewise_linear_witness :
  0 <= 45 /\ scoreAngle 45 = lerp 30 0.5 60 0.0 45 /\ scoreAngle 45 = 0.25.
Proof.
  assert (H : 0 <= 45) by lra.
  destruct (scoreAngle_piecewise_linear 45 H) as (_ & _ & Hmid & _).
  split; [exact H|]. split.
  - apply Hmid. lra.
  - rewrite Hmid by lra. unfold lerp. lra.
Defined.

(** *** calculateAngle *)


Lemma calculateAngle_zero_ray a b c :
  ray_magnitude b a = 0 \/ ray_magnitude b c = 0 -> calculateAngle a b c = 0.
Proof.
  intros H. unfold calculateAngle. fold (ray_magnitude b a) (ray_magnitude b c).
  destruct H as [-> | ->].
  - rewrite bool_decide_eq_true_2 by reflexivity. reflexivity.
  - rewrite (bool_decide_eq_true_2 (0 = 0)) by reflexivity.
    rewrite orb_true_r. reflexivity.
Qed.

Lemma calculateAngle_regular a b c :
  ray_magnitude b a <> 0 -> ray_magnitude b c <> 0 ->
  calculateAngle a b c
  = acos (Rmax (-1) (Rmin 1 (ray_cosine a b c))) * 180 / PI.
Proof.
  intros Ha Hc. unfold calculateAngle, ray_cosine.
  fold (ray_magnitude b a) (ray_magnitude b c).
  rewrite !bool_decide_eq_false_2 by assumption. reflexivity.
Qed.


Lemma calculateAngle_range a b c : 0 <= calculateAngle a b c <= 180.
Proof.
  destruct (decide (ray_magnitude b a = 0)) as [Ha | Ha].
  { rewrite calculateAngle_zero_ray by auto. lra. }
  destruct (decide (ray_magnitude b c = 0)) as [Hc | Hc].
  { rewrite calculateAngle_zero_ray by auto. lra. }
  rewrite calculateAngle_regular by assumption.
  pose proof PI_RGT_0 as Hpi.
  pose proof (acos_bound (Rmax (-1) (Rmin 1 (ray_cosine a b c)))) as [H0 H1].
  split.
  - apply Rmult_le_pos; [nra | left; now apply Rinv_0_lt_compat].
  - apply Rmult_le_reg_r with PI; [lra|].
    unfold Rdiv. rewrite Rmult_assoc, Rinv_l by lra. nra.
Qed.



(** *** The aggregation of comparePoses *)



Lemma filedUnder_cons k a angles :
  filedUnder k (a :: angles)
  = if decide (region_key (region a) = k)
    then score a :: filedUnder k angles else filedUnder k angles.
Proof.
  unfold filedUnder. rewrite filter_cons.
  destruct (decide (region_key (region a) = k)); reflexivity.
Qed.

Lemma bucketStep_lookup (m : gmap string (list R)) a k :
  bucketStep m a !! k
  = if decide (region_key (region a) = k)
    then Some (nullish (m !! k) [] ++ [score a]) else m !! k.
Proof.
  unfold bucketStep.
  destruct (decide (region_key (region a) = k)) as [<- | Hne].
  - destruct (m !! region_key (region a)) as [l|] eqn:Hm.
    + rewrite lookup_alter_eq, Hm. reflexivity.
    + rewrite lookup_alter_eq, lookup_insert_eq. reflexivity.
  - destruct (m !! region_key (region a)) as [l|] eqn:Hm.
    + now rewrite lookup_alter_ne.
    + rewrite lookup_alter_ne, lookup_insert_ne by assumption. reflexivity.
Qed.

Lemma buckets_lookup angles (m : gmap string (list R)) k :
  fold_left bucketStep angles m !! k
  = match m !! k with
    | Some l => Some (l ++ filedUnder k angles)
    | None => if decide (filedUnder k angles = []) then None
              else Some (filedUnder k angles)
    end.
Proof.
  revert m. induction angles as [|a angles IH]; intros m; simpl.
  - destruct (m !! k); [now rewrite app_nil_r | reflexivity].
  - rewrite IH, bucketStep_lookup, filedUnder_cons.
    destruct (decide (region_key (region a) = k)) as [Hk | Hk].
    + destruct (m !! k) as [l|]; simpl.
      * now rewrite <- app_assoc.
      * reflexivity.
    + reflexivity.
Qed.

Lemma fold_left_sum (l : list R) (acc : R) :
  fold_left (fun sum s => sum + s) l acc = acc + foldr Rplus 0 l.
Proof.
  revert acc. induction l as [|r l IH]; intros acc; simpl.
  - lra.
  - rewrite IH. lra.
Qed.

Lemma averageOf_mean l : averageOf l = mean l.
Proof. unfold averageOf, mean. rewrite fold_left_sum. f_equal. lra. Qed.

Lemma fold_left_score_sum (angles : list AngleComparison) (acc : R) :
  fold_left (fun sum a => sum + score a) angles acc
  = acc + foldr Rplus 0 (score <$> angles).
Proof.
  revert acc. induction angles as [|a angles IH]; intros acc.
  - simpl. lra.
  - rewrite fmap_cons. simpl fold_left. simpl foldr. rewrite IH. lra.
Qed.

(** What [aggregate] returns on a non-empty sequence. *)
Lemma aggregate_nonempty angles :
  angles <> [] ->
  exists res,
    aggregate angles = Some res /\
    PoseComparison.angles res = angles /\
    (forall k, regionScores res !! k
               = if decide (filedUnder k angles = []) then None
                 else Some (mean (filedUnder k angles))) /\
    overallScore res = mean (score <$> angles) * 100.
Proof.
  intros Hne. unfold aggregate.
  rewrite decide_False by (destruct angles; [congruence | discriminate]).
  eexists. split; [reflexivity|]. simpl. split; [reflexivity|]. split.
  - intros k. rewrite lookup_fmap, buckets_lookup, lookup_empty.
    destruct (decide (filedUnder k angles = [])); simpl; [reflexivity|].
    now rewrite averageOf_mean.
  - unfold mean. rewrite fold_left_score_sum, length_fmap. f_equal. f_equal. lra.
Qed.

Lemma aggregate_empty : aggregate [] = None.
Proof. reflexivity. Qed.


(** *** comparePoses: the length guard and the torso-lean entry *)

Lemma collectAngles_last ref usr :
  exists front e,
    collectAngles ref usr = front ++ [e] /\
    name e = "Torso Lean"%string /\ region e = torso /\
    refAngle e = calculateTorsoLean ref /\
    userAngle e = calculateTorsoLean usr.
Proof. unfold collectAngles. eexists _, _. split; [reflexivity|]. now simpl. Qed.

Lemma collectAngles_front ref usr front e :
  collectAngles ref usr = front ++ [e] ->
  front = fold_left (angleStep ref usr) ANGLE_DEFINITIONS [].
Proof.
  unfold collectAngles. intros H. apply app_inj_tail in H as [H _].
  symmetry. exact H.
Qed.

Lemma collectAngles_nonempty ref usr : collectAngles ref usr <> [].
Proof.
  destruct (collectAngles_last ref usr) as (front & e & -> & _).
  now destruct front.
Qed.

Lemma filedUnder_snoc k front e :
  region_key (region e) = k -> filedUnder k (front ++ [e]) <> [].
Proof.
  intros Hk. unfold filedUnder.
  rewrite filter_app, fmap_app, filter_cons, decide_True by assumption.
  simpl. now destruct (score <$> _).
Qed.

Lemma comparePoses_short ref usr :
  (length ref < 33)%nat \/ (length usr < 33)%nat -> comparePoses ref usr = None.
Proof.
  intros H. unfold comparePoses.
  destruct H as [H | H].
  - now rewrite (bool_decide_eq_true_2 _ H).
  - rewrite (bool_decide_eq_true_2 _ H), orb_true_r. reflexivity.
Qed.

Lemma comparePoses_long_enough ref usr :
  (33 <= length ref)%nat -> (33 <= length usr)%nat ->
  comparePoses ref usr = aggregate (collectAngles ref usr).
Proof.
  intros Hr Hu. unfold comparePoses.
  rewrite !bool_decide_eq_false_2 by lia. reflexivity.
Qed.

Lemma comparePoses_Some_inv ref usr res :
  comparePoses ref usr = Some res ->
  (33 <= length ref)%nat /\ (33 <= length usr)%nat /\
  angles res = collectAngles ref usr /\
  aggregate (angles res) = Some res.
Proof.
  intros H.
  destruct (decide (length ref < 33)%nat) as [Hr | Hr].
  { rewrite comparePoses_short in H by auto. discriminate. }
  destruct (decide (length usr < 33)%nat) as [Hu | Hu].
  { rewrite comparePoses_short in H by auto. discriminate. }
  rewrite comparePoses_long_enough in H by lia.
  destruct (aggregate_nonempty _ (collectAngles_nonempty ref usr))
    as (res' & Hagg & Hang & _).
  rewrite Hagg in H. injection H as <-.
  rewrite Hang. repeat split; try lia. exact Hagg.
Qed.

Lemma comparePoses_None_iff ref usr :
  comparePoses ref usr = None
  <-> (length ref < 33)%nat \/ (length usr < 33)%nat.
Proof.
  split; [|apply comparePoses_short].
  intros H.
  destruct (decide (length ref < 33)%nat) as [Hr | Hr]; [now left|].
  destruct (decide (length usr < 33)%nat) as [Hu | Hu]; [now right|].
  rewrite comparePoses_long_enough in H by lia.
  destruct (aggregate_nonempty _ (collectAngles_nonempty ref usr))
    as (res' & Hagg & _).
  congruence.
Qed.

Lemma length_uprightPose v : length (uprightPose v) = 33%nat.
Proof. reflexivity. Qed.

(** C10: when both landmark sets have at least 33 entries, whatever the
    visibilities, [comparePoses] returns a result; its angle list is not
    empty and ends with the "Torso Lean" entry, and its region scores have
    a value under the torso key.  No result is returned only when one of
    the sets has fewer than 33 entries. *)
Theorem comparePoses_torso_unconditional
    (ref usr : list NormalizedLandmark) :
  ((33 <= length ref)%nat -> (33 <= length usr)%nat ->
   exists res,
     comparePoses ref usr = Some res /\
     angles res <> [] /\
     (exists e, last (angles res) = Some e /\
                name e = "Torso Lean"%string /\ region e = torso) /\
     is_Some (regionScores res !! region_key torso)) /\
  (comparePoses ref usr = None ->
   (length ref < 33)%nat \/ (length usr < 33)%nat).
Proof.
  split; [|apply comparePoses_None_iff].
  intros Hr Hu. rewrite comparePoses_long_enough by assumption.
  destruct (aggregate_nonempty _ (collectAngles_nonempty ref usr))
    as (res & Hagg & Hang & Hreg & _).
  exists res. split; [exact Hagg|]. rewrite Hang.
  split; [apply collectAngles_nonempty|].
  destruct (collectAngles_last ref usr) as (front & e & Hc & Hname & Hregion & _).
  split.
  - exists e. rewrite Hc, last_snoc. auto.
  - rewrite Hreg, Hc, decide_False; [eauto|].
    apply filedUnder_snoc. now rewrite Hregion.
Qed.

Lemma comparePoses_torso_unconditional_witness :
  exists res, comparePoses hiddenPose hiddenPose = Some res /\
              is_Some (regionScores res !! "torso"%string).
Proof.
  destruct (comparePoses_torso_unconditional hiddenPose hiddenPose) as [H _].
  destruct H as (res & Hres & _ & _ & Htorso).
  - unfold hiddenPose. rewrite length_uprightPose. lia.
  - unfold hiddenPose. rewrite length_uprightPose. lia.
  - exists res. split; [exact Hres | exact Htorso].
Defined.

Lemma comparePoses_is_Some ref usr :
  (exists res, comparePoses ref usr = Some res)
  <-> (33 <= length ref)%nat /\ (33 <= length usr)%nat.
Proof.
  split.
  - intros [res H]. apply comparePoses_Some_inv in H. tauto.
  - intros [Hr Hu].
    destruct (comparePoses ref usr) as [res|] eqn:H; [eauto|].
    apply comparePoses_None_iff in H. lia.
Qed.






(** The overall score weighs angles, not regions: with two matching
    left-arm angles and a failing torso lean the region means are 1 and 0,
    whose mean would give 50, while the overall score is 200/3. *)
Lemma overall_is_not_mean_of_region_means :
  exists res,
    aggregate lopsidedAngles = Some res /\
    regionScores res !! region_key leftArm = Some 1 /\
    regionScores res !! region_key torso = Some 0 /\
    overallScore res = 200 / 3 /\
    overallScore res <> mean [1; 0] * 100.
Proof.
  destruct (aggregate_nonempty lopsidedAngles) as (res & Hres & _ & Hreg & Hall);
    [discriminate|].
  exists res. split; [exact Hres|].
  assert (Ho : overallScore res = 200 / 3)
    by (rewrite Hall; unfold mean; simpl; lra).
  split; [|split; [|split]].
  - rewrite Hreg. unfold filedUnder, mean. simpl. f_equal. lra.
  - rewrite Hreg. unfold filedUnder, mean. simpl. f_equal. lra.
  - exact Ho.
  - rewrite Ho. unfold mean. simpl. lra.
Qed.

(** Landmarks past index 32 are never read. *)
Lemma angleStep_take ref usr acc def :
  def ∈ ANGLE_DEFINITIONS ->
  angleStep (take 33 ref) (take 33 usr) acc def = angleStep ref usr acc def.
Proof.
  unfold ANGLE_DEFINITIONS. intros Hdef.
  repeat (apply elem_of_cons in Hdef as [-> | Hdef]);
    try (now apply elem_of_nil in Hdef);
    unfold angleStep; cbn [indices];
    rewrite !lookup_take_lt by lia; reflexivity.
Qed.

Lemma fold_angleStep_take ref usr defs acc :
  (forall def, def ∈ defs -> def ∈ ANGLE_DEFINITIONS) ->
  fold_left (angleStep (take 33 ref) (take 33 usr)) defs acc
  = fold_left (angleStep ref usr) defs acc.
Proof.
  revert acc. induction defs as [|def defs IH]; intros acc Hin; simpl.
  - reflexivity.
  - rewrite angleStep_take by (apply Hin, list_elem_of_here).
    apply IH. intros d Hd. now apply Hin, list_elem_of_further.
Qed.

Lemma calculateTorsoLean_take l :
  calculateTorsoLean (take 33 l) = calculateTorsoLean l.
Proof.
  unfold calculateTorsoLean. rewrite !lookup_take_lt by lia. reflexivity.
Qed.

Lemma collectAngles_take ref usr :
  collectAngles (take 33 ref) (take 33 usr) = collectAngles ref usr.
Proof.
  unfold collectAngles.
  rewrite fold_angleStep_take by auto.
  now rewrite !calculateTorsoLean_take.
Qed.

Lemma comparePoses_take ref usr :
  (33 <= length ref)%nat -> (33 <= length usr)%nat ->
  comparePoses (take 33 ref) (take 33 usr) = comparePoses ref usr.
Proof.
  intros Hr Hu.
  rewrite !comparePoses_long_enough by (rewrite ?length_take; lia).
  now rewrite collectAngles_take.
Qed.

(** *** Confidence gating *)

Lemma landmarkVisible_true (l : list NormalizedLandmark) i :
  landmarkVisible (l !! i) = true
  <-> exists lm, l !! i = Some lm /\ 0.5 <= nullish (visibility lm) 0.
Proof.
  unfold landmarkVisible, MIN_VISIBILITY.
  destruct (l !! i) as [lm|]; split.
  - intros H. apply bool_decide_eq_true in H. eauto.
  - intros (lm' & [= <-] & H). now apply bool_decide_eq_true.
  - discriminate.
  - intros (lm' & [=] & _).
Qed.

(** One pass of the loop adds at most the comparison of its definition, and
    only when all six landmarks are visible. *)
Lemma angleStep_elem ref usr acc def e :
  e ∈ angleStep ref usr acc def ->
  e ∈ acc \/
  (name e = def_name def /\ region e = def_region def /\
   allVisible ref usr def).
Proof.
  unfold angleStep, allVisible.
  destruct (indices def) as [[a b] c].
  destruct (landmarkVisible (ref !! a)) eqn:Hra; simpl; [|now left].
  destruct (landmarkVisible (ref !! b)) eqn:Hrb; simpl; [|now left].
  destruct (landmarkVisible (ref !! c)) eqn:Hrc; simpl; [|now left].
  destruct (landmarkVisible (usr !! a)) eqn:Hua; simpl; [|now left].
  destruct (landmarkVisible (usr !! b)) eqn:Hub; simpl; [|now left].
  destruct (landmarkVisible (usr !! c)) eqn:Huc; simpl; [|now left].
  assert (Hall : forall i, i = a \/ i = b \/ i = c ->
            landmarkVisible (ref !! i) = true /\
            landmarkVisible (usr !! i) = true)
    by (intros i [-> | [-> | ->]]; split; assumption).
  destruct (ref !! a), (ref !! b), (ref !! c),
           (usr !! a), (usr !! b), (usr !! c); try (now left).
  intros He. apply elem_of_app in He as [He | He]; [now left|].
  apply list_elem_of_singleton in He as ->. right.
  split; [reflexivity|]. split; [reflexivity|]. exact Hall.
Qed.

Lemma fold_angleStep_elem ref usr defs acc e :
  e ∈ fold_left (angleStep ref usr) defs acc ->
  e ∈ acc \/
  exists def, def ∈ defs /\ name e = def_name def /\
              region e = def_region def /\ allVisible ref usr def.
Proof.
  revert acc. induction defs as [|def defs IH]; intros acc; simpl.
  - now left.
  - intros He. apply IH in He as [He | (d & Hd & H)].
    + apply angleStep_elem in He as [He | H]; [now left|].
      right. exists def. split; [apply list_elem_of_here | exact H].
    + right. exists d. split; [now apply list_elem_of_further | exact H].
Qed.

(** The part of the gating rule that the code keeps: each of the eight
    catalog angles is in the output only if its three landmarks are visible
    in both sets.  The torso-lean entry is the one exception. *)
Lemma catalog_angles_gated ref usr res e :
  comparePoses ref usr = Some res ->
  e ∈ angles res ->
  name e = "Torso Lean"%string \/
  exists def, def ∈ ANGLE_DEFINITIONS /\ name e = def_name def /\
              region e = def_region def /\ allVisible ref usr def.
Proof.
  intros Hres He. apply comparePoses_Some_inv in Hres as (_ & _ & Hang & _).
  rewrite Hang in He.
  destruct (collectAngles_last ref usr) as (front & t & Hc & Hname & _).
  rewrite Hc in He. apply elem_of_app in He as [He | He].
  - right. apply collectAngles_front in Hc as ->.
    apply fold_angleStep_elem in He as [He | H]; [|exact H].
    exfalso. revert He. apply not_elem_of_nil.
  - left. apply list_elem_of_singleton in He as ->. exact Hname.
Qed.

(** When no landmark of the live set is visible the loop pushes nothing. *)
Lemma fold_angleStep_hidden ref usr defs acc :
  (forall i, landmarkVisible (usr !! i) = false) ->
  fold_left (angleStep ref usr) defs acc = acc.
Proof.
  intros Hhid. induction defs as [|def defs IH]; simpl; [reflexivity|].
  replace (angleStep ref usr acc def) with acc; [exact IH|].
  unfold angleStep. destruct (indices def) as [[a b] c].
  rewrite !Hhid. simpl. now rewrite !orb_true_r.
Qed.

Lemma comparePoses_live_hidden ref usr :
  (33 <= length ref)%nat -> (33 <= length usr)%nat ->
  (forall i, landmarkVisible (usr !! i) = false) ->
  let leanDiff := Rabs (calculateTorsoLean ref - calculateTorsoLean usr) in
  exists res,
    comparePoses ref usr = Some res /\
    angles res
    = [ mkAngleComparison "Torso Lean" (calculateTorsoLean ref)
          (calculateTorsoLean usr) leanDiff (scoreAngle leanDiff) torso ] /\
    regionScores res !! region_key torso = Some (scoreAngle leanDiff) /\
    overallScore res = scoreAngle leanDiff * 100.
Proof.
  intros Hr Hu Hhid leanDiff.
  rewrite comparePoses_long_enough by assumption.
  destruct (aggregate_nonempty _ (collectAngles_nonempty ref usr))
    as (res & Hagg & Hang & Hreg & Hall).
  exists res. split; [exact Hagg|].
  assert (Hc : collectAngles ref usr
               = [ mkAngleComparison "Torso Lean" (calculateTorsoLean ref)
                     (calculateTorsoLean usr) leanDiff (scoreAngle leanDiff)
                     torso ]).
  { unfold collectAngles. now rewrite fold_angleStep_hidden. }
  rewrite Hc in Hang, Hreg, Hall.
  split; [exact Hang|]. split.
  - rewrite Hreg. unfold filedUnder, mean. simpl. f_equal. lra.
  - rewrite Hall. unfold mean. simpl. lra.
Qed.

Lemma hiddenPose_not_visible i : landmarkVisible (hiddenPose !! i) = false.
Proof.
  destruct (hiddenPose !! i) as [lm|] eqn:Hi; [|reflexivity].
  apply list_elem_of_lookup_2 in Hi. unfold hiddenPose, uprightPose in Hi.
  apply elem_of_app in Hi as [Hi | Hi];
    apply elem_of_replicate in Hi as [-> _];
    apply bool_decide_eq_false; unfold MIN_VISIBILITY; simpl; lra.
Qed.

(** C3, evaluated on the code: in [hiddenPose] no landmark reaches the
    visibility 0.5, so gating removes every catalog angle - yet comparing
    the frame with itself returns a result, made of the torso-lean entry
    alone, with overall score 100. *)
Theorem comparePoses_all_gated_still_returns :
  (forall i, landmarkVisible (hiddenPose !! i) = false) /\
  exists res,
    comparePoses hiddenPose hiddenPose = Some res /\
    name <$> angles res = ["Torso Lean"%string] /\
    regionScores res !! region_key torso = Some 1 /\
    overallScore res = 100.
Proof.
  split; [apply hiddenPose_not_visible|].
  destruct (comparePoses_live_hidden hiddenPose hiddenPose)
    as (res & Hres & Hang & Hreg & Hall);
    try (unfold hiddenPose; rewrite length_uprightPose; lia);
    try apply hiddenPose_not_visible.
  assert (Hd : Rabs (calculateTorsoLean hiddenPose
                     - calculateTorsoLean hiddenPose) = 0)
    by (rewrite Rminus_diag; apply Rabs_R0).
  rewrite Hd in Hang, Hreg, Hall.
  assert (Hs : scoreAngle 0 = 1) by score_cases.
  rewrite Hs in Hreg, Hall.
  exists res. split; [exact Hres|]. split; [now rewrite Hang|].
  split; [exact Hreg | lra].
Qed.

Lemma hipsHiddenPose_hip_not_visible :
  landmarkVisible (hipsHiddenPose !! 23%nat) = false /\
  landmarkVisible (hipsHiddenPose !! 24%nat) = false.
Proof.
  split; apply bool_decide_eq_false; unfold MIN_VISIBILITY; simpl; lra.
Qed.

(** C2, evaluated on the code: the torso-lean measurement depends on the
    shoulders (11, 12) and the hips (23, 24).  In [hipsHiddenPose] both hips
    are below the visibility 0.5; the catalog angles through a hip are
    absent from the comparison with a fully visible reference, but the
    "Torso Lean" entry is present. *)
Theorem comparePoses_torso_lean_not_gated :
  landmarkVisible (hipsHiddenPose !! 23%nat) = false /\
  landmarkVisible (hipsHiddenPose !! 24%nat) = false /\
  exists res,
    comparePoses (uprightPose 1) hipsHiddenPose = Some res /\
    (exists e, e ∈ angles res /\ name e = "Torso Lean"%string) /\
    (forall e, e ∈ angles res ->
       name e <> "Left Hip"%string /\ name e <> "Right Hip"%string).
Proof.
  split; [apply hipsHiddenPose_hip_not_visible|].
  split; [apply hipsHiddenPose_hip_not_visible|].
  destruct (proj2 (comparePoses_is_Some (uprightPose 1) hipsHiddenPose))
    as [res Hres].
  { split; [rewrite length_uprightPose; lia|].
    unfold hipsHiddenPose. rewrite !length_insert, length_uprightPose. lia. }
  exists res. split; [exact Hres|]. split.
  - pose proof (comparePoses_Some_inv _ _ _ Hres) as (_ & _ & Hang & _).
    destruct (collectAngles_last (uprightPose 1) hipsHiddenPose)
      as (front & e & Hc & Hname & _).
    exists e. split; [|exact Hname].
    rewrite Hang, Hc. apply elem_of_app. right. apply list_elem_of_here.
  - intros e He.
    destruct (catalog_angles_gated _ _ _ _ Hres He)
      as [Hn | (def & Hdef & Hn & _ & Hvis)].
    { rewrite Hn. split; discriminate. }
    destruct hipsHiddenPose_hip_not_visible as [H23 H24].
    unfold ANGLE_DEFINITIONS in Hdef.
    repeat (apply elem_of_cons in Hdef as [-> | Hdef]);
      try (now apply elem_of_nil in Hdef);
      rewrite Hn; simpl; try (split; discriminate);
      unfold allVisible in Hvis; simpl in Hvis.
    + destruct (Hvis 23%nat) as [_ Hu]; [tauto|]. congruence.
    + destruct (Hvis 24%nat) as [_ Hu]; [tauto|]. congruence.
Qed.

(** ** LandmarkSmoother *)

Lemma smoothPoint_cons alpha p prev :
  forall i lm,
    (LandmarkSmoother.smoothPoint alpha (p :: prev) ∘ S) i lm
    = LandmarkSmoother.smoothPoint alpha prev i lm.
Proof. reflexivity. Qed.

(** With a stored set of the same length no point faults, and the mapped
    array is the pointwise blend. *)
Lemma smoothed_points alpha landmarks :
  forall prev, length prev = length landmarks ->
  mapM (fun p => p) (imap (LandmarkSmoother.smoothPoint alpha prev) landmarks)
  = Some (zip_with (blend alpha) landmarks prev).
Proof.
  induction landmarks as [|lm landmarks IH]; intros prev Hlen.
  - reflexivity.
  - destruct prev as [|p prev]; [discriminate|].
    injection Hlen as Hlen.
    rewrite imap_cons, (imap_ext _ _ _ (fun i lm _ => smoothPoint_cons alpha p prev i lm)).
    simpl. rewrite (IH prev Hlen). reflexivity.
Qed.

Lemma smooth_first_call s landmarks :
  LandmarkSmoother.previous s = None ->
  LandmarkSmoother.smooth s landmarks
  = Some (LandmarkSmoother.mkSmoother (Some landmarks)
            (LandmarkSmoother.alpha s), landmarks).
Proof. intros H. unfold LandmarkSmoother.smooth. now rewrite H. Qed.

Lemma smooth_length_changed s prev landmarks :
  LandmarkSmoother.previous s = Some prev ->
  length prev <> length landmarks ->
  LandmarkSmoother.smooth s landmarks
  = Some (LandmarkSmoother.mkSmoother (Some landmarks)
            (LandmarkSmoother.alpha s), landmarks).
Proof.
  intros H Hlen. unfold LandmarkSmoother.smooth.
  now rewrite H, decide_True.
Qed.

Lemma smooth_subsequent_call s prev landmarks :
  LandmarkSmoother.previous s = Some prev ->
  length prev = length landmarks ->
  let smoothed := zip_with (blend (LandmarkSmoother.alpha s)) landmarks prev in
  LandmarkSmoother.smooth s landmarks
  = Some (LandmarkSmoother.mkSmoother (Some smoothed)
            (LandmarkSmoother.alpha s), smoothed).
Proof.
  intros H Hlen smoothed. unfold LandmarkSmoother.smooth.
  rewrite H, decide_False by (intros Hne; now apply Hne).
  now rewrite smoothed_points.
Qed.

(** C6: [smooth] on a smoother without stored set, or whose stored set
    has another length than the incoming one, stores the raw set and returns
    it unchanged.  Otherwise it returns, and stores, a set of the same
    length whose every point has each coordinate x, y, z equal to
    [alpha * raw + (1 - alpha) * previous] and the raw visibility.  [reset]
    clears the stored set, and the next call is a first call. *)
Theorem LandmarkSmoother_smooth_spec
    (s : LandmarkSmoother.t) (landmarks : list NormalizedLandmark) :
  (LandmarkSmoother.previous s = None \/
   (exists prev, LandmarkSmoother.previous s = Some prev /\
                 length prev <> length landmarks) ->
   LandmarkSmoother.smooth s landmarks
   = Some (LandmarkSmoother.mkSmoother (Some landmarks)
             (LandmarkSmoother.alpha s), landmarks)) /\
  (forall prev,
     LandmarkSmoother.previous s = Some prev ->
     length prev = length landmarks ->
     exists smoothed,
       LandmarkSmoother.smooth s landmarks
       = Some (LandmarkSmoother.mkSmoother (Some smoothed)
                 (LandmarkSmoother.alpha s), smoothed) /\
       length smoothed = length landmarks /\
       forall i raw,
         landmarks !! i = Some raw ->
         exists p q,
           prev !! i = Some p /\ smoothed !! i = Some q /\
           x q = LandmarkSmoother.alpha s * x raw
                 + (1 - LandmarkSmoother.alpha s) * x p /\
           y q = LandmarkSmoother.alpha s * y raw
                 + (1 - LandmarkSmoother.alpha s) * y p /\
           z q = LandmarkSmoother.alpha s * z raw
                 + (1 - LandmarkSmoother.alpha s) * z p /\
           visibility q = visibility raw) /\
  LandmarkSmoother.previous (LandmarkSmoother.reset s) = None /\
  LandmarkSmoother.alpha (LandmarkSmoother.reset s) = LandmarkSmoother.alpha s /\
  LandmarkSmoother.smooth (LandmarkSmoother.reset s) landmarks
  = Some (LandmarkSmoother.mkSmoother (Some landmarks)
            (LandmarkSmoother.alpha s), landmarks).
Proof.
  split; [|split].
  - intros [H | (prev & H & Hlen)].
    + now apply smooth_first_call.
    + now apply smooth_length_changed with prev.
  - intros prev H Hlen.
    exists (zip_with (blend (LandmarkSmoother.alpha s)) landmarks prev).
    split; [now apply smooth_subsequent_call|].
    split; [now apply length_zip_with_l_eq|].
    intros i raw Hraw.
    destruct (prev !! i) as [p|] eqn:Hp.
    + exists p, (blend (LandmarkSmoother.alpha s) raw p).
      split; [reflexivity|]. split; [|now simpl].
      rewrite lookup_zip_with, Hraw. simpl. now rewrite Hp.
    + apply lookup_ge_None in Hp. apply lookup_lt_Some in Hraw. lia.
  - repeat split.
Qed.

Lemma LandmarkSmoother_smooth_spec_witness :
  let raw := mkLandmark 1 0 0 (Some 0.9) in
  let prev := mkLandmark 0 1 0 (Some 0.2) in
  let s := LandmarkSmoother.mkSmoother (Some [prev]) 0.5 in
  exists s' q,
    LandmarkSmoother.smooth s [raw] = Some (s', [q]) /\
    LandmarkSmoother.previous s' = Some [q] /\
    x q = 0.5 /\ y q = 0.5 /\ z q = 0 /\ visibility q = Some 0.9.
Proof.
  intros raw prev s.
  destruct (LandmarkSmoother_smooth_spec s [raw]) as (_ & Hsub & _).
  destruct (Hsub [prev] eq_refl eq_refl) as (smoothed & Hsm & Hlen & Hpt).
  destruct (Hpt 0%nat raw eq_refl)
    as (p & q & Hp & Hq & Hx & Hy & Hz & Hv).
  injection Hp as <-.
  destruct smoothed as [|q' [|? ?]]; try discriminate Hlen.
  injection Hq as ->.
  exists (LandmarkSmoother.mkSmoother (Some [q]) 0.5), q.
  split; [exact Hsm|]. split; [reflexivity|].
  rewrite Hx, Hy, Hz, Hv. simpl. repeat split; lra.
Defined.

(** ** ScoreSmoother *)

(** The loop over the incoming keys: a key of the incoming mapping gets
    the blended value, every other key keeps the stored one. *)
Lemma ema_fold_lookup alpha (stored incoming : gmap string R) key :
  map_fold (ScoreSmoother.emaStep alpha) stored incoming !! key
  = match incoming !! key with
    | Some value =>
        Some (alpha * value + (1 - alpha) * nullish (stored !! key) value)
    | None => stored !! key
    end.
Proof.
  revert key.
  apply (map_fold_weak_ind
           (fun r (m : gmap string R) =>
              forall key,
                r !! key
                = match m !! key with
                  | Some value =>
                      Some (alpha * value
                            + (1 - alpha) * nullish (stored !! key) value)
                  | None => stored !! key
                  end)).
  - intros key. now rewrite lookup_empty.
  - intros i v m r Hi IH key. unfold ScoreSmoother.emaStep.
    destruct (decide (i = key)) as [<- | Hne].
    + rewrite !lookup_insert_eq, IH, Hi. reflexivity.
    + rewrite !lookup_insert_ne by assumption. apply IH.
Qed.

(** C7: on a primed smoother [update] returns, and stores, a mapping in
    which every key of the incoming mapping holds
    [alpha * incoming + (1 - alpha) * previous], the previous value being the
    incoming one when the key was not stored before (so that a new key gets
    its incoming value); every stored key absent from the incoming mapping
    keeps its value; and the overall score is
    [alpha * incoming + (1 - alpha) * previous]. *)
Theorem ScoreSmoother_update_primed
    (s : ScoreSmoother.t) (regionScores : gmap string R) (overallScore : R)
    (Hprimed : ScoreSmoother.hasData s = true) :
  let alpha := ScoreSmoother.alpha s in
  let s' := (ScoreSmoother.update s regionScores overallScore).1 in
  let out := (ScoreSmoother.update s regionScores overallScore).2 in
  (forall key value prev,
     regionScores !! key = Some value ->
     ScoreSmoother.smoothedRegions s !! key = Some prev ->
     ScoreSmoother.regions out !! key
     = Some (alpha * value + (1 - alpha) * prev)) /\
  (forall key value,
     regionScores !! key = Some value ->
     ScoreSmoother.smoothedRegions s !! key = None ->
     ScoreSmoother.regions out !! key
     = Some (alpha * value + (1 - alpha) * value) /\
     ScoreSmoother.regions out !! key = Some value) /\
  (forall key,
     regionScores !! key = None ->
     ScoreSmoother.regions out !! key
     = ScoreSmoother.smoothedRegions s !! key) /\
  ScoreSmoother.overall out
  = alpha * overallScore + (1 - alpha) * ScoreSmoother.smoothedOverall s /\
  ScoreSmoother.smoothedRegions s' = ScoreSmoother.regions out /\
  ScoreSmoother.smoothedOverall s' = ScoreSmoother.overall out /\
  ScoreSmoother.hasData s' = true /\
  ScoreSmoother.alpha s' = alpha.
Proof.
  intros alpha s' out. subst s' out. unfold ScoreSmoother.update.
  rewrite Hprimed. simpl. fold alpha.
  split; [|split; [|split]].
  - intros key value prev Hin Hst.
    now rewrite ema_fold_lookup, Hin, Hst.
  - intros key value Hin Hst.
    rewrite ema_fold_lookup, Hin, Hst. simpl.
    split; [reflexivity | f_equal; lra].
  - intros key Hin. now rewrite ema_fold_lookup, Hin.
  - repeat split.
Qed.

Lemma ScoreSmoother_update_primed_witness :
  let s := ScoreSmoother.mkSmoother {[ "torso"%string := 1 ]} 100 true 0.5 in
  let out := (ScoreSmoother.update s {[ "leftArm"%string := 0.5 ]} 50).2 in
  ScoreSmoother.regions out !! "leftArm"%string = Some 0.5 /\
  ScoreSmoother.regions out !! "torso"%string = Some 1 /\
  ScoreSmoother.overall out = 75.
Proof.
  intros s out.
  destruct (ScoreSmoother_update_primed s {[ "leftArm"%string := 0.5 ]} 50
              eq_refl) as (_ & Hnew & Hkeep & Hall & _).
  split; [|split].
  - apply (Hnew "leftArm"%string 0.5); reflexivity.
  - subst out. rewrite (Hkeep "torso"%string); reflexivity.
  - subst out. rewrite Hall. simpl. lra.
Defined.

(** C8: [update] on an unprimed smoother returns exactly its inputs and
    stores them, marking the smoother primed; after [reset] any smoother is
    the fresh one, so that [reset] followed by [update] again returns the new
    inputs unchanged, whatever was stored before. *)
Theorem ScoreSmoother_first_update_and_reset
    (alpha : R) (s : ScoreSmoother.t)
    (regionScores : gmap string R) (overallScore : R) :
  ScoreSmoother.update (ScoreSmoother.new alpha) regionScores overallScore
  = (ScoreSmoother.mkSmoother regionScores overallScore true alpha,
     ScoreSmoother.mkSmoothed regionScores overallScore) /\
  ScoreSmoother.reset s = ScoreSmoother.new (ScoreSmoother.alpha s) /\
  ScoreSmoother.update (ScoreSmoother.reset s) regionScores overallScore
  = (ScoreSmoother.mkSmoother regionScores overallScore true
       (ScoreSmoother.alpha s),
     ScoreSmoother.mkSmoothed regionScores overallScore) /\
  (forall regionScores0 overallScore0,
     (ScoreSmoother.update
        (ScoreSmoother.reset
           (ScoreSmoother.update s regionScores0 overallScore0).1)
        regionScores overallScore).2
     = ScoreSmoother.mkSmoothed regionScores overallScore) /\
  (ScoreSmoother.hasData s = false ->
   ScoreSmoother.update s regionScores overallScore
   = (ScoreSmoother.mkSmoother regionScores overallScore true
        (ScoreSmoother.alpha s),
      ScoreSmoother.mkSmoothed regionScores overallScore)).
Proof.
  repeat split. intros Hfresh. unfold ScoreSmoother.update.
  now rewrite Hfresh.
Qed.

Lemma ScoreSmoother_first_update_and_reset_witness :
  let used := ScoreSmoother.mkSmoother {[ "torso"%string := 0.25 ]} 40 true 0.12 in
  let incoming : gmap string R := {[ "leftLeg"%string := 1 ]} in
  ScoreSmoother.update (ScoreSmoother.reset used) incoming 90
  = (ScoreSmoother.mkSmoother incoming 90 true 0.12,
     ScoreSmoother.mkSmoothed incoming 90).
Proof.
  intros used incoming.
  destruct (ScoreSmoother_first_update_and_reset 0.12
              (ScoreSmoother.reset used) incoming 90) as (_ & _ & _ & _ & H).
  apply H. reflexivity.
Defined.

(** * Further properties *)

(** ** calculateAngle: geometry *)

Lemma magnitude_scaled k u v w :
  sqrt ((k * u) ^ 2 + (k * v) ^ 2 + (k * w) ^ 2)
  = Rabs k * sqrt (u ^ 2 + v ^ 2 + w ^ 2).
Proof.
  pose proof (pow2_ge_0 u). pose proof (pow2_ge_0 v). pose proof (pow2_ge_0 w).
  replace ((k * u) ^ 2 + (k * v) ^ 2 + (k * w) ^ 2)
    with (Rsqr k * (u ^ 2 + v ^ 2 + w ^ 2)) by (unfold Rsqr; ring).
  rewrite sqrt_mult; [|apply Rle_0_sqr | lra].
  now rewrite sqrt_Rsqr_abs.
Qed.

Lemma angle_of_scaled_rays k u1 u2 u3 v1 v2 v3 :
  k <> 0 ->
  (if bool_decide (sqrt ((k * u1) ^ 2 + (k * u2) ^ 2 + (k * u3) ^ 2) = 0)
      || bool_decide (sqrt ((k * v1) ^ 2 + (k * v2) ^ 2 + (k * v3) ^ 2) = 0)
   then 0
   else acos (Rmax (-1) (Rmin 1
          (((k * u1) * (k * v1) + (k * u2) * (k * v2) + (k * u3) * (k * v3))
           / (sqrt ((k * u1) ^ 2 + (k * u2) ^ 2 + (k * u3) ^ 2)
              * sqrt ((k * v1) ^ 2 + (k * v2) ^ 2 + (k * v3) ^ 2)))))
        * 180 / PI)
  = (if bool_decide (sqrt (u1 ^ 2 + u2 ^ 2 + u3 ^ 2) = 0)
        || bool_decide (sqrt (v1 ^ 2 + v2 ^ 2 + v3 ^ 2) = 0)
     then 0
     else acos (Rmax (-1) (Rmin 1
            ((u1 * v1 + u2 * v2 + u3 * v3)
             / (sqrt (u1 ^ 2 + u2 ^ 2 + u3 ^ 2)
                * sqrt (v1 ^ 2 + v2 ^ 2 + v3 ^ 2)))))
          * 180 / PI).
Proof.
  intros Hk. rewrite !magnitude_scaled.
  set (mu := sqrt (u1 ^ 2 + u2 ^ 2 + u3 ^ 2)).
  set (mv := sqrt (v1 ^ 2 + v2 ^ 2 + v3 ^ 2)).
  assert (Hak : Rabs k <> 0) by now apply Rabs_no_R0.
  assert (Hkk : Rabs k * Rabs k = k * k).
  { rewrite <- Rabs_mult. apply Rabs_pos_eq. nra. }
  destruct (decide (mu = 0)) as [Hu | Hu].
  { rewrite Hu, Rmult_0_r. now rewrite !(bool_decide_eq_true_2 (0 = 0)). }
  destruct (decide (mv = 0)) as [Hv | Hv].
  { rewrite Hv, Rmult_0_r. rewrite !(bool_decide_eq_true_2 (0 = 0)) by reflexivity.
    now rewrite !orb_true_r. }
  rewrite !bool_decide_eq_false_2; try assumption;
    try (intros H0; apply Rmult_integral in H0; tauto).
  simpl. do 5 f_equal.
  replace (Rabs k * mu * (Rabs k * mv)) with (k * k * (mu * mv))
    by (rewrite <- Hkk; ring).
  field. repeat split; assumption.
Qed.

(** X1: The angle at a joint does not depend on where the figure stands, on
    its size, or on the order of the two limbs. *)
Theorem calculateAngle_invariances (a b c : NormalizedLandmark) :
  (forall dx dy dz,
     calculateAngle (translate dx dy dz a) (translate dx dy dz b)
       (translate dx dy dz c)
     = calculateAngle a b c) /\
  (forall k, k <> 0 ->
     calculateAngle (scale k a) (scale k b) (scale k c)
     = calculateAngle a b c) /\
  calculateAngle c b a = calculateAngle a b c.
Proof.
  split; [|split].
  - intros dx dy dz. unfold calculateAngle, translate. simpl.
    replace (x a + dx - (x b + dx)) with (x a - x b) by ring.
    replace (y a + dy - (y b + dy)) with (y a - y b) by ring.
    replace (z a + dz - (z b + dz)) with (z a - z b) by ring.
    replace (x c + dx - (x b + dx)) with (x c - x b) by ring.
    replace (y c + dy - (y b + dy)) with (y c - y b) by ring.
    replace (z c + dz - (z b + dz)) with (z c - z b) by ring.
    reflexivity.
  - intros k Hk. unfold calculateAngle, scale. cbn [x y z].
    replace (k * x a - k * x b) with (k * (x a - x b)) by ring.
    replace (k * y a - k * y b) with (k * (y a - y b)) by ring.
    replace (k * z a - k * z b) with (k * (z a - z b)) by ring.
    replace (k * x c - k * x b) with (k * (x c - x b)) by ring.
    replace (k * y c - k * y b) with (k * (y c - y b)) by ring.
    replace (k * z c - k * z b) with (k * (z c - z b)) by ring.
    now apply angle_of_scaled_rays.
  - unfold calculateAngle. cbv zeta.
    rewrite (orb_comm (bool_decide (sqrt ((x c - x b) ^ 2 + (y c - y b) ^ 2
                                          + (z c - z b) ^ 2) = 0))).
    destruct (_ || _); [reflexivity|].
    do 5 f_equal. unfold Rdiv. f_equal; [ring | f_equal; ring].
Qed.

Lemma calculateAngle_invariances_witness :
  let a := mkLandmark 1 0 0 (Some 1) in
  let b := mkLandmark 0 0 0 (Some 1) in
  let c := mkLandmark 0 1 0 (Some 1) in
  calculateAngle (scale 2 a) (scale 2 b) (scale 2 c) = calculateAngle a b c.
Proof.
  intros a b c. apply (calculateAngle_invariances a b c). lra.
Defined.

Lemma cauchy_schwarz u1 u2 u3 v1 v2 v3 :
  let m := sqrt (u1 ^ 2 + u2 ^ 2 + u3 ^ 2) * sqrt (v1 ^ 2 + v2 ^ 2 + v3 ^ 2) in
  - m <= u1 * v1 + u2 * v2 + u3 * v3 <= m.
Proof.
  intros m.
  pose proof (pow2_ge_0 u1). pose proof (pow2_ge_0 u2). pose proof (pow2_ge_0 u3).
  pose proof (pow2_ge_0 v1). pose proof (pow2_ge_0 v2). pose proof (pow2_ge_0 v3).
  assert (Hm : 0 <= m)
    by (apply Rmult_le_pos; apply sqrt_pos).
  assert (Hmm : m * m
                = (u1 ^ 2 + u2 ^ 2 + u3 ^ 2) * (v1 ^ 2 + v2 ^ 2 + v3 ^ 2)).
  { pose proof (sqrt_sqrt (u1 ^ 2 + u2 ^ 2 + u3 ^ 2)) as HU.
    pose proof (sqrt_sqrt (v1 ^ 2 + v2 ^ 2 + v3 ^ 2)) as HV.
    rewrite <- HU, <- HV by lra. unfold m. ring. }
  set (d := u1 * v1 + u2 * v2 + u3 * v3).
  assert (Hd : d * d <= m * m).
  { rewrite Hmm. unfold d.
    pose proof (pow2_ge_0 (u1 * v2 - u2 * v1)).
    pose proof (pow2_ge_0 (u1 * v3 - u3 * v1)).
    pose proof (pow2_ge_0 (u2 * v3 - u3 * v2)).
    nra. }
  split; nra.
Qed.

Lemma ray_cosine_bounds a b c :
  ray_magnitude b a <> 0 -> ray_magnitude b c <> 0 ->
  -1 <= ray_cosine a b c <= 1.
Proof.
  intros Ha Hc. unfold ray_cosine.
  pose proof (cauchy_schwarz (x a - x b) (y a - y b) (z a - z b)
                (x c - x b) (y c - y b) (z c - z b)) as Hcs.
  fold (ray_magnitude b a) (ray_magnitude b c) in Hcs. cbv zeta in Hcs.
  set (d := (x a - x b) * (x c - x b) + (y a - y b) * (y c - y b)
            + (z a - z b) * (z c - z b)) in *.
  assert (Hm : 0 < ray_magnitude b a * ray_magnitude b c).
  { apply Rmult_lt_0_compat.
    - pose proof (sqrt_pos ((x a - x b) ^ 2 + (y a - y b) ^ 2 + (z a - z b) ^ 2)).
      unfold ray_magnitude in *. lra.
    - pose proof (sqrt_pos ((x c - x b) ^ 2 + (y c - y b) ^ 2 + (z c - z b) ^ 2)).
      unfold ray_magnitude in *. lra. }
  split.
  - apply Rmult_le_reg_r with (ray_magnitude b a * ray_magnitude b c); [exact Hm|].
    unfold Rdiv. rewrite Rmult_assoc, Rinv_l by lra. lra.
  - apply Rmult_le_reg_r with (ray_magnitude b a * ray_magnitude b c); [exact Hm|].
    unfold Rdiv. rewrite Rmult_assoc, Rinv_l by lra. lra.
Qed.

Lemma clamp_inactive r : -1 <= r <= 1 -> Rmax (-1) (Rmin 1 r) = r.
Proof.
  intros [Hlo Hhi]. rewrite Rmin_right by assumption.
  now apply Rmax_right.
Qed.

(** X2: In exact arithmetic the clamp never acts: for two rays of non-zero
    length the result is the arc cosine of their cosine, in degrees.
    Perpendicular rays give 90 degrees. *)
Theorem calculateAngle_is_arc_cosine (a b c : NormalizedLandmark)
    (Ha : ray_magnitude b a <> 0) (Hc : ray_magnitude b c <> 0) :
  calculateAngle a b c = acos (ray_cosine a b c) * 180 / PI /\
  (ray_dot a b c = 0 -> calculateAngle a b c = 90).
Proof.
  assert (Heq : calculateAngle a b c = acos (ray_cosine a b c) * 180 / PI).
  { rewrite calculateAngle_regular by assumption.
    now rewrite clamp_inactive by now apply ray_cosine_bounds. }
  split; [exact Heq|].
  intros Hdot. rewrite Heq. unfold ray_cosine.
  unfold ray_dot in Hdot. rewrite Hdot.
  unfold Rdiv at 2. rewrite Rmult_0_l, acos_0.
  pose proof PI_RGT_0. field. lra.
Qed.

Lemma calculateAngle_is_arc_cosine_witness :
  calculateAngle (mkLandmark 1 0 0 None) (mkLandmark 0 0 0 None)
    (mkLandmark 0 1 0 None) = 90.
Proof.
  assert (H1 : forall u v w, sqrt (u ^ 2 + v ^ 2 + w ^ 2) = 1 ->
                             sqrt (u ^ 2 + v ^ 2 + w ^ 2) <> 0)
    by (intros u v w ->; lra).
  apply calculateAngle_is_arc_cosine.
  - apply H1. unfold x, y, z.
    replace ((1 - 0) ^ 2 + (0 - 0) ^ 2 + (0 - 0) ^ 2) with 1 by ring.
    apply sqrt_1.
  - apply H1. unfold x, y, z.
    replace ((0 - 0) ^ 2 + (1 - 0) ^ 2 + (0 - 0) ^ 2) with 1 by ring.
    apply sqrt_1.
  - unfold ray_dot. simpl. ring.
Defined.

(** X3: A limb bent back onto itself measures 0 degrees and a straight limb
    180: when the ray to [c] is [t] times the ray to [a]. *)
Theorem calculateAngle_collinear (a b c : NormalizedLandmark) (t : R)
    (Ha : ray_magnitude b a <> 0) (Ht : t <> 0)
    (Hx : x c - x b = t * (x a - x b))
    (Hy : y c - y b = t * (y a - y b))
    (Hz : z c - z b = t * (z a - z b)) :
  calculateAngle a b c = if decide (0 < t) then 0 else 180.
Proof.
  assert (Hmc : ray_magnitude b c = Rabs t * ray_magnitude b a).
  { unfold ray_magnitude. rewrite Hx, Hy, Hz. apply magnitude_scaled. }
  assert (Hat : Rabs t <> 0) by now apply Rabs_no_R0.
  assert (Hc : ray_magnitude b c <> 0).
  { rewrite Hmc. intros H0. apply Rmult_integral in H0. tauto. }
  destruct (calculateAngle_is_arc_cosine a b c Ha Hc) as [-> _].
  assert (Hcos : ray_cosine a b c = t / Rabs t).
  { unfold ray_cosine. rewrite Hmc, Hx, Hy, Hz.
    pose proof (pow2_ge_0 (x a - x b)). pose proof (pow2_ge_0 (y a - y b)).
    pose proof (pow2_ge_0 (z a - z b)).
    assert (Hsq : ray_magnitude b a * ray_magnitude b a
                  = (x a - x b) ^ 2 + (y a - y b) ^ 2 + (z a - z b) ^ 2)
      by (unfold ray_magnitude; apply sqrt_sqrt; lra).
    replace ((x a - x b) * (t * (x a - x b)) + (y a - y b) * (t * (y a - y b))
             + (z a - z b) * (t * (z a - z b)))
      with (t * (ray_magnitude b a * ray_magnitude b a))
      by (rewrite Hsq; ring).
    field. split; assumption. }
  rewrite Hcos. pose proof PI_RGT_0.
  destruct (decide (0 < t)) as [Hpos | Hneg].
  - rewrite Rabs_pos_eq by lra.
    replace (t / t) with 1 by (field; lra).
    rewrite acos_1. field. lra.
  - rewrite Rabs_left by lra.
    replace (t / - t) with (Ropp 1) by (field; lra).
    rewrite acos_opp, acos_1. field. lra.
Qed.

Lemma calculateAngle_collinear_witness :
  calculateAngle (mkLandmark 1 0 0 None) (mkLandmark 0 0 0 None)
    (mkLandmark (-2) 0 0 None) = 180.
Proof.
  assert (Ha : ray_magnitude (mkLandmark 0 0 0 None) (mkLandmark 1 0 0 None) <> 0).
  { unfold ray_magnitude, x, y, z.
    replace ((1 - 0) ^ 2 + (0 - 0) ^ 2 + (0 - 0) ^ 2) with 1 by ring.
    rewrite sqrt_1. lra. }
  rewrite (calculateAngle_collinear _ _ _ (-2) Ha); simpl; try lra.
  rewrite decide_False by lra. reflexivity.
Defined.

(** ** calculateTorsoLean *)

Lemma atan_of_nonpos r : r <= 0 -> atan r <= 0.
Proof.
  intros [Hlt | ->].
  - left. rewrite <- atan_0. now apply atan_increasing.
  - rewrite atan_0. lra.
Qed.

Lemma atan_of_pos r : 0 < r -> 0 < atan r.
Proof. intros H. rewrite <- atan_0. now apply atan_increasing. Qed.

Lemma quotient_neg_denominator p q : q < 0 -> (0 <= p -> p / q <= 0) /\ (p < 0 -> 0 < p / q).
Proof.
  intros Hq. assert (Hi : / q < 0) by now apply Rinv_lt_0_compat.
  unfold Rdiv. split; intros Hp; nra.
Qed.

Lemma atan2_range p q : - PI < atan2 p q <= PI.
Proof.
  pose proof PI_RGT_0 as Hpi. unfold atan2.
  pose proof (atan_bound (p / q)) as [Hlo Hhi].
  repeat case_decide; try lra.
  - assert (atan (p / q) <= 0)
      by (apply atan_of_nonpos; now apply quotient_neg_denominator).
    lra.
  - assert (0 < atan (p / q))
      by (apply atan_of_pos; apply quotient_neg_denominator; lra).
    lra.
Qed.

Lemma atan2_flip_abs p q : Rabs (atan2 (- p) q) = Rabs (atan2 p q).
Proof.
  pose proof PI_RGT_0 as Hpi. unfold atan2.
  replace (- p / q) with (- (p / q)) by (unfold Rdiv; ring).
  rewrite atan_opp.
  destruct (decide (0 < q)) as [Hq | Hq]; [apply Rabs_Ropp|].
  destruct (decide (q < 0)) as [Hq' | Hq'].
  - destruct (decide (p = 0)) as [-> | Hp].
    + rewrite !decide_True by lra. unfold Rdiv. now rewrite Rmult_0_l, atan_0, Ropp_0.
    + destruct (decide (0 <= p)).
      * rewrite (decide_False (P := 0 <= - p)) by lra.
        rewrite <- (Rabs_Ropp (atan (p / q) + PI)). f_equal. ring.
      * rewrite (decide_True (P := 0 <= - p)) by lra.
        rewrite <- (Rabs_Ropp (atan (p / q) - PI)). f_equal. ring.
  - destruct (decide (0 < p)), (decide (p < 0)); try lra.
    + rewrite (decide_False (P := 0 < - p)), (decide_True (P := - p < 0)) by lra.
      apply Rabs_Ropp.
    + rewrite (decide_True (P := 0 < - p)) by lra.
      symmetry. apply Rabs_Ropp.
    + rewrite (decide_False (P := 0 < - p)), (decide_False (P := - p < 0)) by lra.
      reflexivity.
Qed.

Lemma lean_degrees_range r : - PI < r <= PI -> 0 <= Rabs (r * (180 / PI)) <= 180.
Proof.
  intros Hr. pose proof PI_RGT_0 as Hpi.
  split; [apply Rabs_pos|].
  assert (Hc : 0 < 180 / PI) by (apply Rdiv_lt_0_compat; lra).
  rewrite Rabs_mult, (Rabs_pos_eq (180 / PI)) by lra.
  assert (Ha : Rabs r <= PI) by (apply Rabs_le; lra).
  replace 180 with (PI * (180 / PI)) at 2 by (field; lra).
  apply Rmult_le_compat_r; lra.
Qed.

Lemma calculateTorsoLean_range l : 0 <= calculateTorsoLean l <= 180.
Proof.
  unfold calculateTorsoLean.
  destruct (l !! 11%nat), (l !! 12%nat), (l !! 23%nat), (l !! 24%nat);
    try lra.
  apply lean_degrees_range, atan2_range.
Qed.

(** X4: The torso lean is a number of degrees between 0 and 180; it is 0 when
    a shoulder or hip is missing from the set (fewer than 25 entries); it is
    the same for the mirrored image and for the figure moved elsewhere; and
    it is 0 when the middle of the shoulders is straight above the middle of
    the hips. *)
Theorem calculateTorsoLean_properties (l : list NormalizedLandmark) :
  0 <= calculateTorsoLean l <= 180 /\
  ((length l < 25)%nat -> calculateTorsoLean l = 0) /\
  calculateTorsoLean (mirror <$> l) = calculateTorsoLean l /\
  (forall dx dy dz,
     calculateTorsoLean (translate dx dy dz <$> l) = calculateTorsoLean l) /\
  (forall lShoulder rShoulder lHip rHip,
     l !! 11%nat = Some lShoulder -> l !! 12%nat = Some rShoulder ->
     l !! 23%nat = Some lHip -> l !! 24%nat = Some rHip ->
     x lShoulder + x rShoulder = x lHip + x rHip ->
     y lShoulder + y rShoulder < y lHip + y rHip ->
     calculateTorsoLean l = 0).
Proof.
  split; [apply calculateTorsoLean_range|]. split; [|split; [|split]].
  - intros Hlen. unfold calculateTorsoLean.
    rewrite (lookup_ge_None_2 l 24) by lia.
    now destruct (l !! 11%nat), (l !! 12%nat), (l !! 23%nat).
  - unfold calculateTorsoLean. rewrite !list_lookup_fmap.
    destruct (l !! 11%nat) as [ls|], (l !! 12%nat) as [rs|],
             (l !! 23%nat) as [lh|], (l !! 24%nat) as [rh|];
      try reflexivity.
    cbn [fmap option_fmap option_map mirror x y].
    replace ((1 - x ls + (1 - x rs)) / 2 - (1 - x lh + (1 - x rh)) / 2)
      with (- ((x ls + x rs) / 2 - (x lh + x rh) / 2)) by field.
    rewrite !Rabs_mult. now rewrite atan2_flip_abs.
  - intros dx dy dz. unfold calculateTorsoLean. rewrite !list_lookup_fmap.
    destruct (l !! 11%nat) as [ls|], (l !! 12%nat) as [rs|],
             (l !! 23%nat) as [lh|], (l !! 24%nat) as [rh|];
      try reflexivity.
    cbn [fmap option_fmap option_map translate x y].
    do 3 f_equal; [|f_equal]; field.
  - intros ls rs lh rh H11 H12 H23 H24 Hx Hy.
    unfold calculateTorsoLean. rewrite H11, H12, H23, H24. unfold atan2.
    rewrite decide_True by lra.
    replace ((x ls + x rs) / 2 - (x lh + x rh) / 2) with 0 by lra.
    unfold Rdiv at 1. rewrite Rmult_0_l, atan_0, Rmult_0_l. apply Rabs_R0.
Qed.

Lemma calculateTorsoLean_properties_witness :
  calculateTorsoLean [] = 0 /\ calculateTorsoLean (uprightPose 1) = 0.
Proof.
  split.
  - destruct (calculateTorsoLean_properties []) as (_ & H & _).
    apply H. simpl. lia.
  - destruct (calculateTorsoLean_properties (uprightPose 1))
      as (_ & _ & _ & _ & H).
    apply (H (mkLandmark 0.5 0.25 0 (Some 1)) (mkLandmark 0.5 0.25 0 (Some 1))
             (mkLandmark 0.5 0.75 0 (Some 1)) (mkLandmark 0.5 0.75 0 (Some 1)));
      try reflexivity; simpl; lra.
Defined.

(** ** comparePoses: the angle list *)

Lemma angleStep_measured ref usr acc def :
  angleStep ref usr acc def = acc ++ option_list (measured ref usr def).
Proof.
  unfold angleStep, measured. destruct (indices def) as [[a b] c].
  destruct (ref !! a) as [rA|], (ref !! b) as [rB|], (ref !! c) as [rC|],
           (usr !! a) as [uA|], (usr !! b) as [uB|], (usr !! c) as [uC|];
    cbn [landmarkVisible negb orb];
    rewrite ?orb_true_r, ?app_nil_r; try reflexivity;
    try (repeat (destruct (bool_decide _); cbn [negb orb andb option_list];
                 rewrite ?app_nil_r; try reflexivity); fail).
Qed.

Lemma fold_angleStep_measured ref usr defs acc :
  fold_left (angleStep ref usr) defs acc = acc ++ omap (measured ref usr) defs.
Proof.
  revert acc. induction defs as [|def defs IH]; intros acc; simpl.
  - now rewrite app_nil_r.
  - rewrite IH, angleStep_measured, <- app_assoc. f_equal.
    now destruct (measured ref usr def).
Qed.

Lemma collectAngles_measured ref usr :
  collectAngles ref usr
  = omap (measured ref usr) ANGLE_DEFINITIONS ++ [torsoLeanEntry ref usr].
Proof.
  unfold collectAngles. now rewrite fold_angleStep_measured.
Qed.

Lemma measured_Some ref usr def e :
  measured ref usr def = Some e ->
  name e = def_name def /\ region e = def_region def /\
  allVisible ref usr def /\ consistent e.
Proof.
  unfold measured, allVisible. destruct (indices def) as [[a b] c].
  destruct (ref !! a) as [rA|] eqn:Hra; [|discriminate].
  destruct (ref !! b) as [rB|] eqn:Hrb; [|discriminate].
  destruct (ref !! c) as [rC|] eqn:Hrc; [|discriminate].
  destruct (usr !! a) as [uA|] eqn:Hua; [|discriminate].
  destruct (usr !! b) as [uB|] eqn:Hub; [|discriminate].
  destruct (usr !! c) as [uC|] eqn:Huc; [|discriminate].
  destruct (landmarkVisible (Some rA)) eqn:Va; [|discriminate].
  destruct (landmarkVisible (Some rB)) eqn:Vb; [|discriminate].
  destruct (landmarkVisible (Some rC)) eqn:Vc; [|discriminate].
  destruct (landmarkVisible (Some uA)) eqn:Wa; [|discriminate].
  destruct (landmarkVisible (Some uB)) eqn:Wb; [|discriminate].
  destruct (landmarkVisible (Some uC)) eqn:Wc; [|discriminate].
  intros [= <-]. split; [reflexivity|]. split; [reflexivity|]. split.
  - intros i [-> | [-> | ->]]; rewrite ?Hra, ?Hrb, ?Hrc, ?Hua, ?Hub, ?Huc;
      split; assumption.
  - unfold consistent. cbn [refAngle userAngle diff score].
    repeat split; try apply calculateAngle_range.
Qed.

Lemma measured_visible ref usr def :
  allVisible ref usr def -> is_Some (measured ref usr def).
Proof.
  unfold measured, allVisible. destruct (indices def) as [[a b] c].
  intros H.
  destruct (H a) as [Hra Hua]; [tauto|].
  destruct (H b) as [Hrb Hub]; [tauto|].
  destruct (H c) as [Hrc Huc]; [tauto|].
  destruct (ref !! a), (ref !! b), (ref !! c),
           (usr !! a), (usr !! b), (usr !! c); try discriminate.
  rewrite Hra, Hrb, Hrc, Hua, Hub, Huc. cbn [andb]. eauto.
Qed.

Lemma torsoLeanEntry_consistent ref usr : consistent (torsoLeanEntry ref usr).
Proof.
  unfold consistent, torsoLeanEntry. cbn [refAngle userAngle diff score].
  repeat split; apply calculateTorsoLean_range.
Qed.

Lemma elem_of_collectAngles ref usr e :
  e ∈ collectAngles ref usr <->
  e = torsoLeanEntry ref usr \/
  exists def, def ∈ ANGLE_DEFINITIONS /\ measured ref usr def = Some e.
Proof.
  rewrite collectAngles_measured, elem_of_app, list_elem_of_omap,
    list_elem_of_singleton.
  tauto.
Qed.

Lemma catalog_names_distinct d1 d2 :
  d1 ∈ ANGLE_DEFINITIONS -> d2 ∈ ANGLE_DEFINITIONS ->
  def_name d1 = def_name d2 -> d1 = d2.
Proof.
  assert (Hnd : NoDup (def_name <$> ANGLE_DEFINITIONS))
    by (apply (bool_decide_unpack _); vm_compute; exact I).
  revert Hnd. generalize ANGLE_DEFINITIONS as defs.
  induction defs as [|d defs IH]; intros Hnd H1 H2 Hn.
  - now apply elem_of_nil in H1.
  - rewrite fmap_cons in Hnd. apply NoDup_cons in Hnd as [Hd Hnd].
    apply elem_of_cons in H1 as [-> | H1], H2 as [-> | H2].
    + reflexivity.
    + exfalso. apply Hd. rewrite Hn. apply list_elem_of_fmap. eauto.
    + exfalso. apply Hd. rewrite <- Hn. apply list_elem_of_fmap. eauto.
    + now apply IH.
Qed.

Lemma catalog_name_not_torso def :
  def ∈ ANGLE_DEFINITIONS -> def_name def <> "Torso Lean"%string.
Proof.
  unfold ANGLE_DEFINITIONS. intros H.
  repeat (apply elem_of_cons in H as [-> | H]);
    try (now apply elem_of_nil in H); discriminate.
Qed.

Lemma sum_bounds lo hi (l : list R) :
  (forall v, v ∈ l -> lo <= v <= hi) ->
  lo * INR (length l) <= foldr Rplus 0 l <= hi * INR (length l).
Proof.
  induction l as [|r l IH]; intros Hl.
  - simpl. lra.
  - assert (Hr : lo <= r <= hi) by (apply Hl, list_elem_of_here).
    assert (IH' : lo * INR (length l) <= foldr Rplus 0 l <= hi * INR (length l))
      by (apply IH; intros v Hv; now apply Hl, list_elem_of_further).
    change (length (r :: l)) with (S (length l)). rewrite S_INR.
    simpl foldr. lra.
Qed.

Lemma mean_bounds lo hi (l : list R) :
  l <> [] -> (forall v, v ∈ l -> lo <= v <= hi) -> lo <= mean l <= hi.
Proof.
  intros Hne Hl. pose proof (sum_bounds lo hi l Hl) as [Hlo Hhi].
  assert (Hn : 0 < INR (length l)).
  { apply lt_0_INR. destruct l; [congruence | simpl; lia]. }
  unfold mean. split.
  - apply Rmult_le_reg_r with (INR (length l)); [exact Hn|].
    unfold Rdiv. rewrite Rmult_assoc, Rinv_l by lra. lra.
  - apply Rmult_le_reg_r with (INR (length l)); [exact Hn|].
    unfold Rdiv. rewrite Rmult_assoc, Rinv_l by lra. lra.
Qed.

Lemma elem_of_filedUnder k angles v :
  v ∈ filedUnder k angles -> exists e, e ∈ angles /\ score e = v.
Proof.
  unfold filedUnder. intros H.
  apply list_elem_of_fmap in H as (e & -> & He).
  apply list_elem_of_filter in He as [_ He]. eauto.
Qed.

(** Aggregated scores stay within the bounds of the single scores. *)
Lemma aggregate_bounds lo hi angles res :
  aggregate angles = Some res ->
  (forall e, e ∈ angles -> lo <= score e <= hi) ->
  lo * 100 <= overallScore res <= hi * 100 /\
  (forall k v, regionScores res !! k = Some v -> lo <= v <= hi).
Proof.
  intros Hagg Hall.
  assert (Hne : angles <> []).
  { intros ->. discriminate Hagg. }
  destruct (aggregate_nonempty _ Hne) as (res' & Hagg' & _ & Hreg & Hov).
  rewrite Hagg in Hagg'. injection Hagg' as <-.
  split.
  - rewrite Hov.
    assert (lo <= mean (score <$> angles) <= hi).
    { apply mean_bounds.
      - destruct angles; [congruence | discriminate].
      - intros v Hv. apply list_elem_of_fmap in Hv as (e & -> & He). now apply Hall. }
    lra.
  - intros k v. rewrite Hreg.
    destruct (decide (filedUnder k angles = [])) as [|Hk]; [discriminate|].
    intros [= <-]. apply mean_bounds; [exact Hk|].
    intros v Hv. apply elem_of_filedUnder in Hv as (e & He & <-). now apply Hall.
Qed.

Lemma consistent_bounds e :
  consistent e -> 0 <= diff e <= 180 /\ 0 <= score e <= 1.
Proof.
  intros (Hr & Hu & -> & ->). split; [|apply scoreAngle_range].
  split; [apply Rabs_pos|]. apply Rabs_le. lra.
Qed.

Lemma collectAngles_consistent ref usr e :
  e ∈ collectAngles ref usr -> consistent e.
Proof.
  rewrite elem_of_collectAngles. intros [-> | (def & _ & H)].
  - apply torsoLeanEntry_consistent.
  - now apply measured_Some in H.
Qed.

(** X5: Every result of [comparePoses] is well formed: each entry holds two
    angles between 0 and 180 degrees, their absolute difference and the score
    of that difference, between 0 and 1; the overall score is between 0 and
    100 and every region score between 0 and 1. *)
Theorem comparePoses_result_ranges
    (ref usr : list NormalizedLandmark) (res : PoseComparisonResult)
    (Hres : comparePoses ref usr = Some res) :
  (forall e, e ∈ angles res ->
     0 <= refAngle e <= 180 /\ 0 <= userAngle e <= 180 /\
     diff e = Rabs (refAngle e - userAngle e) /\ 0 <= diff e <= 180 /\
     score e = scoreAngle (diff e) /\ 0 <= score e <= 1) /\
  0 <= overallScore res <= 100 /\
  (forall k v, regionScores res !! k = Some v -> 0 <= v <= 1).
Proof.
  apply comparePoses_Some_inv in Hres as (_ & _ & Hang & Hagg).
  assert (Hcons : forall e, e ∈ angles res -> consistent e)
    by (intros e He; rewrite Hang in He; now apply collectAngles_consistent in He).
  split.
  - intros e He. pose proof (Hcons e He) as Hc.
    pose proof (consistent_bounds e Hc). unfold consistent in Hc. tauto.
  - destruct (aggregate_bounds 0 1 _ _ Hagg) as [Hov Hreg].
    + intros e He. now apply consistent_bounds, Hcons.
    + split; [lra | exact Hreg].
Qed.

Lemma comparePoses_result_ranges_witness :
  exists res,
    comparePoses (uprightPose 1) hipsHiddenPose = Some res /\
    0 <= overallScore res <= 100.
Proof.
  destruct (proj2 (comparePoses_is_Some (uprightPose 1) hipsHiddenPose))
    as [res Hres].
  { split; [rewrite length_uprightPose; lia|].
    unfold hipsHiddenPose. rewrite !length_insert, length_uprightPose. lia. }
  exists res. split; [exact Hres|].
  apply (comparePoses_result_ranges _ _ _ Hres).
Defined.

(** X6: A catalog angle is in the result exactly when its three landmarks are
    visible (present, with visibility at least 0.5) in both sets; and any
    entry of its name is the comparison of that definition, filed under the
    region of the definition. *)
Theorem catalog_angle_present_iff_visible
    (ref usr : list NormalizedLandmark) (res : PoseComparisonResult)
    (def : AngleDefinition)
    (Hres : comparePoses ref usr = Some res)
    (Hdef : def ∈ ANGLE_DEFINITIONS) :
  ((exists e, e ∈ angles res /\ name e = def_name def)
   <-> allVisible ref usr def) /\
  (forall e, e ∈ angles res -> name e = def_name def ->
             region e = def_region def /\
             measured ref usr def = Some e).
Proof.
  apply comparePoses_Some_inv in Hres as (_ & _ & Hang & _).
  assert (Hkey : forall e, e ∈ angles res -> name e = def_name def ->
                           measured ref usr def = Some e).
  { intros e He Hn. rewrite Hang in He.
    apply elem_of_collectAngles in He as [-> | (def' & Hdef' & Hm)].
    - exfalso. symmetry in Hn. now apply catalog_name_not_torso in Hn.
    - pose proof (measured_Some _ _ _ _ Hm) as (Hn' & _).
      rewrite Hn' in Hn.
      now rewrite <- (catalog_names_distinct def' def Hdef' Hdef Hn). }
  split; [split|].
  - intros (e & He & Hn). pose proof (Hkey e He Hn) as Hm.
    now apply measured_Some in Hm.
  - intros Hvis. destruct (measured_visible _ _ _ Hvis) as [e Hm].
    exists e. split.
    + rewrite Hang. apply elem_of_collectAngles. eauto.
    + now apply measured_Some in Hm.
  - intros e He Hn. pose proof (Hkey e He Hn) as Hm.
    split; [|exact Hm]. now apply measured_Some in Hm.
Qed.

Lemma catalog_angle_present_iff_visible_witness :
  exists res e,
    comparePoses (uprightPose 1) (uprightPose 1) = Some res /\
    e ∈ angles res /\ name e = "Left Elbow"%string.
Proof.
  destruct (proj2 (comparePoses_is_Some (uprightPose 1) (uprightPose 1)))
    as [res Hres]; [rewrite length_uprightPose; lia|].
  assert (Hdef : mkAngleDefinition "Left Elbow" (11, 13, 15)%nat leftArm
                 ∈ ANGLE_DEFINITIONS) by apply list_elem_of_here.
  destruct (catalog_angle_present_iff_visible _ _ res _ Hres Hdef)
    as [[_ Hpresent] _].
  destruct Hpresent as (e & He & Hn).
  - intros i [-> | [-> | ->]]; split; apply bool_decide_eq_true;
      unfold MIN_VISIBILITY; simpl; lra.
  - exists res, e. split; [exact Hres|]. split; [exact He | exact Hn].
Defined.

Lemma measured_self l def e :
  measured l l def = Some e -> refAngle e = userAngle e.
Proof.
  unfold measured. destruct (indices def) as [[a b] c].
  destruct (l !! a), (l !! b), (l !! c); try discriminate.
  destruct (_ && _); [|discriminate]. now intros [= <-].
Qed.

(** X7: A frame compared with itself matches perfectly: every difference is 0,
    every score 1, every region score 1 and the overall score 100. *)
Theorem comparePoses_with_itself (l : list NormalizedLandmark)
    (Hlen : (33 <= length l)%nat) :
  exists res,
    comparePoses l l = Some res /\
    (forall e, e ∈ angles res ->
       refAngle e = userAngle e /\ diff e = 0 /\ score e = 1) /\
    overallScore res = 100 /\
    (forall k v, regionScores res !! k = Some v -> v = 1).
Proof.
  destruct (proj2 (comparePoses_is_Some l l)) as [res Hres]; [auto|].
  exists res. split; [exact Hres|].
  pose proof (comparePoses_Some_inv _ _ _ Hres) as (_ & _ & Hang & Hagg).
  assert (Hall : forall e, e ∈ angles res ->
                   refAngle e = userAngle e /\ diff e = 0 /\ score e = 1).
  { intros e He.
    assert (Hc : consistent e)
      by (rewrite Hang in He; now apply collectAngles_consistent in He).
    assert (Heq : refAngle e = userAngle e).
    { rewrite Hang in He.
      apply elem_of_collectAngles in He as [-> | (def & _ & Hm)];
        [reflexivity | now apply measured_self in Hm]. }
    destruct Hc as (_ & _ & Hd & Hs).
    assert (Hd0 : diff e = 0) by (rewrite Hd, Heq, Rminus_diag; apply Rabs_R0).
    split; [exact Heq|]. split; [exact Hd0|].
    rewrite Hs, Hd0. score_cases. }
  split; [exact Hall|].
  destruct (aggregate_bounds 1 1 _ _ Hagg) as [Hov Hreg].
  { intros e He. destruct (Hall e He) as (_ & _ & ->). lra. }
  split; [lra|]. intros k v Hk. specialize (Hreg k v Hk). lra.
Qed.

Lemma comparePoses_with_itself_witness :
  exists res, comparePoses longPose longPose = Some res /\
              overallScore res = 100.
Proof.
  destruct (comparePoses_with_itself longPose) as (res & Hres & _ & Hov & _).
  - change (length longPose) with 34%nat. lia.
  - exists res. split; [exact Hres | exact Hov].
Defined.

(** *** Exchanging the two sides *)

Lemma measured_swap ref usr def :
  measured usr ref def = swapSides <$> measured ref usr def.
Proof.
  unfold measured. destruct (indices def) as [[a b] c].
  destruct (ref !! a) as [rA|], (ref !! b) as [rB|], (ref !! c) as [rC|],
           (usr !! a) as [uA|], (usr !! b) as [uB|], (usr !! c) as [uC|];
    try reflexivity.
  destruct (landmarkVisible (Some rA)), (landmarkVisible (Some rB)),
           (landmarkVisible (Some rC)), (landmarkVisible (Some uA)),
           (landmarkVisible (Some uB)), (landmarkVisible (Some uC));
    try reflexivity.
  cbn [andb fmap option_fmap option_map]. unfold swapSides.
  cbn [name refAngle userAngle diff score region].
  now rewrite (Rabs_minus_sym (calculateAngle uA uB uC)).
Qed.

Lemma omap_measured_swap ref usr (defs : list AngleDefinition) :
  omap (measured usr ref) defs = swapSides <$> omap (measured ref usr) defs.
Proof.
  induction defs as [|def defs IH]; [reflexivity|].
  cbn [omap list_omap]. rewrite measured_swap.
  destruct (measured ref usr def); cbn [fmap option_fmap option_map];
    [rewrite fmap_cons|]; now rewrite <- IH.
Qed.

Lemma collectAngles_swap ref usr :
  collectAngles usr ref = swapSides <$> collectAngles ref usr.
Proof.
  rewrite !collectAngles_measured, omap_measured_swap, fmap_app. f_equal.
  unfold torsoLeanEntry, swapSides. simpl.
  now rewrite (Rabs_minus_sym (calculateTorsoLean usr)).
Qed.

Lemma filedUnder_swap k angles :
  filedUnder k (swapSides <$> angles) = filedUnder k angles.
Proof.
  unfold filedUnder. induction angles as [|e angles IH]; [reflexivity|].
  rewrite fmap_cons, !filter_cons. cbn [swapSides region].
  destruct (decide (region_key (region e) = k)); [rewrite !fmap_cons|];
    now rewrite IH.
Qed.

(** X8: [comparePoses] does not prefer a side: exchanging reference and live
    set exchanges the two angles of every entry and changes nothing else -
    same entries in the same order, same scores, same region scores, same
    overall score, and a result in the one order exactly when in the
    other. *)
Theorem comparePoses_exchange (ref usr : list NormalizedLandmark) :
  match comparePoses ref usr, comparePoses usr ref with
  | Some res, Some res' =>
      angles res' = swapSides <$> angles res /\
      overallScore res' = overallScore res /\
      regionScores res' = regionScores res
  | None, None => True
  | _, _ => False
  end.
Proof.
  destruct (comparePoses ref usr) as [res|] eqn:H1,
           (comparePoses usr ref) as [res'|] eqn:H2.
  - apply comparePoses_Some_inv in H1 as (_ & _ & Hang & Hagg).
    apply comparePoses_Some_inv in H2 as (_ & _ & Hang' & Hagg').
    assert (Hsw : angles res' = swapSides <$> angles res)
      by (rewrite Hang, Hang'; apply collectAngles_swap).
    assert (Hne : angles res <> [])
      by (rewrite Hang; apply collectAngles_nonempty).
    assert (Hne' : angles res' <> [])
      by (rewrite Hang'; apply collectAngles_nonempty).
    destruct (aggregate_nonempty _ Hne) as (r & Hr & _ & Hreg & Hov).
    destruct (aggregate_nonempty _ Hne') as (r' & Hr' & _ & Hreg' & Hov').
    rewrite Hagg in Hr. injection Hr as <-.
    rewrite Hagg' in Hr'. injection Hr' as <-.
    split; [exact Hsw|]. split.
    + rewrite Hov, Hov', Hsw. do 2 f_equal.
      rewrite <- list_fmap_compose. now apply list_fmap_ext.
    + apply map_eq. intros k.
      now rewrite Hreg, Hreg', Hsw, filedUnder_swap.
  - apply comparePoses_Some_inv in H1 as (? & ? & _).
    apply comparePoses_None_iff in H2. lia.
  - apply comparePoses_Some_inv in H2 as (? & ? & _).
    apply comparePoses_None_iff in H1. lia.
  - exact I.
Qed.

(** *** Which entries, in which order *)

Lemma omap_measured_names ref usr (defs : list AngleDefinition) :
  name <$> omap (measured ref usr) defs `sublist_of` def_name <$> defs.
Proof.
  induction defs as [|def defs IH]; [constructor|].
  cbn [omap list_omap]. rewrite fmap_cons.
  destruct (measured ref usr def) as [e|] eqn:Hm.
  - rewrite fmap_cons. apply measured_Some in Hm as (-> & _).
    now apply sublist_skip.
  - now apply sublist_cons.
Qed.

Lemma angleNames_NoDup : NoDup angleNames.
Proof.
  apply (bool_decide_unpack _). vm_compute. exact I.
Qed.

(** X9: The entries of a result come in the order of the code - the catalog
    angles that passed the gate, then the torso lean: their names are a
    subsequence of the nine names, so no name occurs twice and there are at
    most nine entries. *)
Theorem comparePoses_angle_order
    (ref usr : list NormalizedLandmark) (res : PoseComparisonResult)
    (Hres : comparePoses ref usr = Some res) :
  name <$> angles res `sublist_of` angleNames /\
  NoDup (name <$> angles res) /\
  (1 <= length (angles res) <= 9)%nat.
Proof.
  apply comparePoses_Some_inv in Hres as (_ & _ & Hang & _).
  assert (Hsub : name <$> angles res `sublist_of` angleNames).
  { rewrite Hang, collectAngles_measured, fmap_app. unfold angleNames.
    apply sublist_app; [apply omap_measured_names | reflexivity]. }
  split; [exact Hsub|]. split.
  - apply (sublist_NoDup _ _ angleNames_NoDup Hsub).
  - apply sublist_length in Hsub. rewrite length_fmap in Hsub.
    change (length angleNames) with 9%nat in Hsub.
    split; [|exact Hsub].
    rewrite Hang, collectAngles_measured, length_app. simpl. lia.
Qed.

Lemma comparePoses_angle_order_witness :
  exists res, comparePoses hiddenPose (uprightPose 1) = Some res /\
              (length (angles res) <= 9)%nat.
Proof.
  destruct (proj2 (comparePoses_is_Some hiddenPose (uprightPose 1)))
    as [res Hres].
  { unfold hiddenPose. rewrite !length_uprightPose. lia. }
  exists res. split; [exact Hres|].
  apply (comparePoses_angle_order _ _ _ Hres).
Defined.

Lemma catalog_indices_compared def a b c :
  def ∈ ANGLE_DEFINITIONS -> indices def = (a, b, c) ->
  a ∈ comparedJoints /\ b ∈ comparedJoints /\ c ∈ comparedJoints.
Proof.
  assert (Hall : Forall (fun d => (indices d).1.1 ∈ comparedJoints /\
                                  (indices d).1.2 ∈ comparedJoints /\
                                  (indices d).2 ∈ comparedJoints)
                   ANGLE_DEFINITIONS)
    by (apply (bool_decide_unpack _); vm_compute; exact I).
  intros Hdef Hidx. rewrite Forall_forall in Hall.
  specialize (Hall def Hdef). now rewrite Hidx in Hall.
Qed.

Lemma measured_ext ref ref' usr usr' def :
  def ∈ ANGLE_DEFINITIONS ->
  (forall i, i ∈ comparedJoints ->
             ref !! i = ref' !! i /\ usr !! i = usr' !! i) ->
  measured ref usr def = measured ref' usr' def.
Proof.
  intros Hdef Hagree. unfold measured.
  destruct (indices def) as [[a b] c] eqn:Hidx.
  destruct (catalog_indices_compared def a b c Hdef Hidx) as (Ha & Hb & Hc).
  destruct (Hagree a Ha) as [-> ->].
  destruct (Hagree b Hb) as [-> ->].
  destruct (Hagree c Hc) as [-> ->].
  reflexivity.
Qed.

Lemma omap_measured_ext ref ref' usr usr' (defs : list AngleDefinition) :
  (forall def, def ∈ defs -> def ∈ ANGLE_DEFINITIONS) ->
  (forall i, i ∈ comparedJoints ->
             ref !! i = ref' !! i /\ usr !! i = usr' !! i) ->
  omap (measured ref usr) defs = omap (measured ref' usr') defs.
Proof.
  intros Hin Hagree. induction defs as [|def defs IH]; [reflexivity|].
  cbn [omap list_omap].
  rewrite (measured_ext ref ref' usr usr' def)
    by (try apply Hin; try apply list_elem_of_here; assumption).
  rewrite IH; [reflexivity|].
  intros d Hd. now apply Hin, list_elem_of_further.
Qed.

(** X10: Only the twelve compared joints matter: two pairs of sets, each of at
    least 33 landmarks, that agree on shoulders, elbows, wrists, hips, knees
    and ankles are compared alike - face, hands, feet and any entry past the
    33rd are never read. *)
Theorem comparePoses_reads_compared_joints
    (ref ref' usr usr' : list NormalizedLandmark)
    (Href : (33 <= length ref)%nat) (Href' : (33 <= length ref')%nat)
    (Husr : (33 <= length usr)%nat) (Husr' : (33 <= length usr')%nat)
    (Hagree : forall i, i ∈ comparedJoints ->
                        ref !! i = ref' !! i /\ usr !! i = usr' !! i) :
  comparePoses ref usr = comparePoses ref' usr'.
Proof.
  rewrite !comparePoses_long_enough by assumption. f_equal.
  rewrite !collectAngles_measured.
  rewrite (omap_measured_ext ref ref' usr usr') by auto.
  f_equal. f_equal. unfold torsoLeanEntry, calculateTorsoLean.
  destruct (Hagree 11%nat) as [-> ->]; [unfold comparedJoints; rewrite !elem_of_cons; tauto|].
  destruct (Hagree 12%nat) as [-> ->]; [unfold comparedJoints; rewrite !elem_of_cons; tauto|].
  destruct (Hagree 23%nat) as [-> ->]; [unfold comparedJoints; rewrite !elem_of_cons; tauto|].
  destruct (Hagree 24%nat) as [-> ->]; [unfold comparedJoints; rewrite !elem_of_cons; tauto|].
  reflexivity.
Qed.

Lemma comparePoses_reads_compared_joints_witness :
  comparePoses (uprightPose 1) (uprightPose 1)
  = comparePoses longPose (<[0%nat := mkLandmark 0 0 0 None]> (uprightPose 1)).
Proof.
  apply comparePoses_reads_compared_joints;
    rewrite ?length_insert, ?length_uprightPose;
    try (change (length longPose) with 34%nat); try lia.
  intros i Hi. unfold comparedJoints in Hi.
  repeat (apply elem_of_cons in Hi as [-> | Hi]);
    try (now apply elem_of_nil in Hi); split; reflexivity.
Defined.

Lemma omap_measured_all_visible ref usr (defs : list AngleDefinition) :
  (forall def, def ∈ defs -> allVisible ref usr def) ->
  name <$> omap (measured ref usr) defs = def_name <$> defs /\
  region <$> omap (measured ref usr) defs = def_region <$> defs.
Proof.
  induction defs as [|def defs IH]; intros Hvis; [now split|].
  destruct IH as [IHn IHr].
  { intros d Hd. now apply Hvis, list_elem_of_further. }
  destruct (measured_visible ref usr def) as [e Hm];
    [apply Hvis, list_elem_of_here|].
  cbn [omap list_omap]. rewrite Hm, !fmap_cons, IHn, IHr.
  apply measured_Some in Hm as (-> & -> & _). now split.
Qed.

Lemma filedUnder_nonempty k angles e :
  e ∈ angles -> region_key (region e) = k -> filedUnder k angles <> [].
Proof.
  intros He Hk Hnil.
  assert (Hin : score e ∈ filedUnder k angles).
  { unfold filedUnder. apply list_elem_of_fmap. exists e. split; [reflexivity|].
    now apply list_elem_of_filter. }
  rewrite Hnil in Hin. now apply elem_of_nil in Hin.
Qed.

(** X11: When the twelve compared joints are visible in both sets, nothing is
    gated: the result lists all nine angles in the order of the code, and
    every one of the five regions has a score. *)
Theorem comparePoses_fully_visible (ref usr : list NormalizedLandmark)
    (Href : (33 <= length ref)%nat) (Husr : (33 <= length usr)%nat)
    (Hvis : forall i, i ∈ comparedJoints ->
                      landmarkVisible (ref !! i) = true /\
                      landmarkVisible (usr !! i) = true) :
  exists res,
    comparePoses ref usr = Some res /\
    name <$> angles res = angleNames /\
    (forall r : Region, is_Some (regionScores res !! region_key r)).
Proof.
  destruct (proj2 (comparePoses_is_Some ref usr)) as [res Hres]; [auto|].
  exists res. split; [exact Hres|].
  apply comparePoses_Some_inv in Hres as (_ & _ & Hang & Hagg).
  destruct (omap_measured_all_visible ref usr ANGLE_DEFINITIONS) as [Hn Hr].
  { intros def Hdef. unfold allVisible.
    destruct (indices def) as [[a b] c] eqn:Hidx.
    destruct (catalog_indices_compared def a b c Hdef Hidx) as (Ha & Hb & Hc).
    intros i [-> | [-> | ->]]; now apply Hvis. }
  split.
  - rewrite Hang, collectAngles_measured, fmap_app, Hn. reflexivity.
  - assert (Hregions : region <$> angles res
                       = [leftArm; rightArm; leftArm; rightArm;
                          leftLeg; rightLeg; leftLeg; rightLeg; torso]).
    { rewrite Hang, collectAngles_measured, fmap_app, Hr. reflexivity. }
    assert (Hne : angles res <> [])
      by (rewrite Hang; apply collectAngles_nonempty).
    destruct (aggregate_nonempty _ Hne) as (res' & Hagg' & _ & Hreg & _).
    rewrite Hagg in Hagg'. injection Hagg' as <-.
    intros r.
    assert (Hr_in : r ∈ region <$> angles res).
    { rewrite Hregions. destruct r; rewrite !elem_of_cons; tauto. }
    apply list_elem_of_fmap in Hr_in as (e & -> & He).
    rewrite Hreg, decide_False; [eauto|].
    now apply filedUnder_nonempty with e.
Qed.

Lemma uprightPose_visible i :
  (i < 33)%nat -> landmarkVisible (uprightPose 1 !! i) = true.
Proof.
  intros Hi. destruct (uprightPose 1 !! i) as [lm|] eqn:Hlm.
  - apply list_elem_of_lookup_2 in Hlm. unfold uprightPose in Hlm.
    apply elem_of_app in Hlm as [Hlm | Hlm];
      apply elem_of_replicate in Hlm as [-> _];
      apply bool_decide_eq_true; unfold MIN_VISIBILITY; simpl; lra.
  - apply lookup_ge_None in Hlm. rewrite length_uprightPose in Hlm. lia.
Qed.

Lemma comparePoses_fully_visible_witness :
  exists res,
    comparePoses (uprightPose 1) (uprightPose 1) = Some res /\
    length (angles res) = 9%nat.
Proof.
  destruct (comparePoses_fully_visible (uprightPose 1) (uprightPose 1))
    as (res & Hres & Hnames & _).
  - rewrite length_uprightPose. lia.
  - rewrite length_uprightPose. lia.
  - intros i Hi. unfold comparedJoints in Hi.
    split; apply uprightPose_visible;
      repeat (apply elem_of_cons in Hi as [-> | Hi]; [lia|]);
      now apply elem_of_nil in Hi.
  - exists res. split; [exact Hres|].
    rewrite <- (length_fmap name), Hnames. reflexivity.
Defined.

(** ** LandmarkSmoother: further properties *)

Lemma blend_visibility alpha (landmarks : list NormalizedLandmark) :
  forall prev, length prev = length landmarks ->
  visibility <$> zip_with (blend alpha) landmarks prev
  = visibility <$> landmarks.
Proof.
  induction landmarks as [|lm landmarks IH]; intros [|p prev] Hlen;
    try discriminate; [reflexivity|].
  injection Hlen as Hlen. cbn [zip_with]. rewrite !fmap_cons, IH by assumption.
  reflexivity.
Qed.

(** X12: [smooth] never faults; it returns a set of the length of its input
    with the visibilities of its input, remembers exactly what it returned,
    and keeps its [alpha]. *)
Theorem LandmarkSmoother_smooth_total
    (s : LandmarkSmoother.t) (landmarks : list NormalizedLandmark) :
  exists s' smoothed,
    LandmarkSmoother.smooth s landmarks = Some (s', smoothed) /\
    length smoothed = length landmarks /\
    visibility <$> smoothed = visibility <$> landmarks /\
    LandmarkSmoother.previous s' = Some smoothed /\
    LandmarkSmoother.alpha s' = LandmarkSmoother.alpha s.
Proof.
  destruct (LandmarkSmoother.previous s) as [prev|] eqn:Hprev.
  - destruct (decide (length prev = length landmarks)) as [Hlen | Hlen].
    + eexists _, _.
      split; [exact (smooth_subsequent_call s prev landmarks Hprev Hlen)|].
      split; [now apply length_zip_with_l_eq|].
      split; [now apply blend_visibility|]. now split.
    + eexists _, _. split; [now apply smooth_length_changed with prev|].
      repeat split.
  - eexists _, _. split; [now apply smooth_first_call|]. repeat split.
Qed.

Lemma blend_same alpha p : blend alpha p p = p.
Proof. destruct p. unfold blend. simpl. f_equal; ring. Qed.

Lemma zip_with_blend_same alpha (l : list NormalizedLandmark) :
  zip_with (blend alpha) l l = l.
Proof.
  induction l as [|p l IH]; [reflexivity|].
  cbn [zip_with]. now rewrite blend_same, IH.
Qed.

(** X13: Steady state: when the raw set equals the remembered one, [smooth]
    returns it unchanged and the smoother stays as it is. *)
Theorem LandmarkSmoother_steady_state
    (s : LandmarkSmoother.t) (landmarks : list NormalizedLandmark)
    (Hprev : LandmarkSmoother.previous s = Some landmarks) :
  LandmarkSmoother.smooth s landmarks = Some (s, landmarks).
Proof.
  rewrite (smooth_subsequent_call s landmarks landmarks Hprev eq_refl).
  rewrite zip_with_blend_same. destruct s as [prev a]. simpl in *.
  now rewrite Hprev.
Qed.

Lemma LandmarkSmoother_steady_state_witness :
  let s := LandmarkSmoother.mkSmoother (Some (uprightPose 1)) 0.35 in
  LandmarkSmoother.smooth s (uprightPose 1) = Some (s, uprightPose 1).
Proof. intros s. now apply LandmarkSmoother_steady_state. Defined.

Lemma between_blend alpha r p :
  0 <= alpha <= 1 ->
  Rmin r p <= alpha * r + (1 - alpha) * p <= Rmax r p.
Proof.
  intros Ha. unfold Rmin, Rmax. destruct (Rle_dec r p); nra.
Qed.

(** X14: With [alpha] between 0 and 1 a smoothed point lies, coordinate by
    coordinate, between the remembered point and the raw one: smoothing
    never overshoots. *)
Theorem LandmarkSmoother_smooth_between
    (s : LandmarkSmoother.t) (landmarks prev : list NormalizedLandmark)
    (Halpha : 0 <= LandmarkSmoother.alpha s <= 1)
    (Hprev : LandmarkSmoother.previous s = Some prev)
    (Hlen : length prev = length landmarks) :
  exists s' smoothed,
    LandmarkSmoother.smooth s landmarks = Some (s', smoothed) /\
    forall i raw p q,
      landmarks !! i = Some raw -> prev !! i = Some p ->
      smoothed !! i = Some q ->
      Rmin (x raw) (x p) <= x q <= Rmax (x raw) (x p) /\
      Rmin (y raw) (y p) <= y q <= Rmax (y raw) (y p) /\
      Rmin (z raw) (z p) <= z q <= Rmax (z raw) (z p).
Proof.
  eexists _, _.
  split; [exact (smooth_subsequent_call s prev landmarks Hprev Hlen)|].
  intros i raw p q Hraw Hp. rewrite lookup_zip_with, Hraw. simpl.
  rewrite Hp. simpl. intros [= <-]. unfold blend. simpl.
  repeat split; now apply between_blend.
Qed.

Lemma LandmarkSmoother_smooth_between_witness :
  let raw := mkLandmark 1 0 0 (Some 0.9) in
  let prev := mkLandmark 0 1 0 (Some 0.2) in
  let s := LandmarkSmoother.mkSmoother (Some [prev]) 0.35 in
  exists s' q, LandmarkSmoother.smooth s [raw] = Some (s', [q]) /\
               0 <= x q <= 1.
Proof.
  intros raw prev s.
  destruct (LandmarkSmoother_smooth_between s [raw] [prev])
    as (s' & smoothed & Hsm & Hbetween); try reflexivity.
  { simpl. lra. }
  pose proof Hsm as Hsm'. unfold LandmarkSmoother.smooth in Hsm'.
  simpl in Hsm'. injection Hsm' as <- <-.
  eexists _, _. split; [exact Hsm|].
  destruct (Hbetween 0%nat raw prev _ eq_refl eq_refl eq_refl) as (Hx & _).
  simpl in Hx. unfold Rmin, Rmax in Hx.
  destruct (Rle_dec 1 0); simpl; lra.
Defined.

(** X15: Under a constant raw set the remembered set closes in geometrically:
    after [n] further calls the distance of every coordinate to the raw
    value is [(1 - alpha) ^ n] times what it was. *)
Theorem LandmarkSmoother_constant_input (n : nat)
    (s : LandmarkSmoother.t) (landmarks prev : list NormalizedLandmark)
    (Hprev : LandmarkSmoother.previous s = Some prev)
    (Hlen : length prev = length landmarks) :
  exists s' stored,
    smoothTimes n s landmarks = Some s' /\
    LandmarkSmoother.previous s' = Some stored /\
    length stored = length landmarks /\
    forall i raw p,
      landmarks !! i = Some raw -> prev !! i = Some p ->
      exists q,
        stored !! i = Some q /\
        x q - x raw = (1 - LandmarkSmoother.alpha s) ^ n * (x p - x raw) /\
        y q - y raw = (1 - LandmarkSmoother.alpha s) ^ n * (y p - y raw) /\
        z q - z raw = (1 - LandmarkSmoother.alpha s) ^ n * (z p - z raw).
Proof.
  revert s prev Hprev Hlen. induction n as [|n IH]; intros s prev Hprev Hlen.
  - exists s, prev. split; [reflexivity|]. split; [exact Hprev|].
    split; [exact Hlen|]. intros i raw p _ Hp. exists p.
    split; [exact Hp|]. simpl. repeat split; ring.
  - cbn [smoothTimes].
    rewrite (smooth_subsequent_call s prev landmarks Hprev Hlen).
    set (a := LandmarkSmoother.alpha s).
    set (s1 := LandmarkSmoother.mkSmoother
                 (Some (zip_with (blend a) landmarks prev)) a).
    destruct (IH s1 (zip_with (blend a) landmarks prev) eq_refl)
      as (s' & stored & Hrun & Hst & Hlen' & Hpts).
    { now apply length_zip_with_l_eq. }
    exists s', stored. split; [exact Hrun|]. split; [exact Hst|].
    split; [exact Hlen'|]. intros i raw p Hraw Hp.
    destruct (Hpts i raw (blend a raw p) Hraw) as (q & Hq & Hx & Hy & Hz).
    { rewrite lookup_zip_with, Hraw. simpl. now rewrite Hp. }
    exists q. split; [exact Hq|].
    change (LandmarkSmoother.alpha s1) with a in Hx, Hy, Hz.
    rewrite Hx, Hy, Hz. unfold blend. simpl. repeat split; ring.
Qed.

Lemma LandmarkSmoother_constant_input_witness :
  let raw := mkLandmark 1 0 0 (Some 0.9) in
  let prev := mkLandmark 0 1 0 (Some 0.2) in
  let s := LandmarkSmoother.mkSmoother (Some [prev]) 0.5 in
  exists s' q,
    smoothTimes 2 s [raw] = Some s' /\
    LandmarkSmoother.previous s' = Some [q] /\ x q = 0.75.
Proof.
  intros raw prev s.
  destruct (LandmarkSmoother_constant_input 2 s [raw] [prev] eq_refl eq_refl)
    as (s' & stored & Hrun & Hst & Hlen & Hpts).
  destruct (Hpts 0%nat raw prev eq_refl eq_refl) as (q & Hq & Hx & _).
  destruct stored as [|q' [|? ?]]; try discriminate Hlen.
  injection Hq as ->.
  exists s', q. split; [exact Hrun|]. split; [exact Hst|].
  simpl in Hx. lra.
Defined.

(** ** ScoreSmoother: further properties *)

(** X16: [update] never loses a region: whatever the smoother held, it is
    primed afterwards with the same [alpha], it stores what it returns, and
    the returned keys are those of the incoming mapping together with, on a
    primed smoother, those held before. *)
Theorem ScoreSmoother_update_keys
    (s : ScoreSmoother.t) (regionScores : gmap string R) (overallScore : R) :
  let s' := (ScoreSmoother.update s regionScores overallScore).1 in
  let out := (ScoreSmoother.update s regionScores overallScore).2 in
  ScoreSmoother.hasData s' = true /\
  ScoreSmoother.alpha s' = ScoreSmoother.alpha s /\
  ScoreSmoother.smoothedRegions s' = ScoreSmoother.regions out /\
  ScoreSmoother.smoothedOverall s' = ScoreSmoother.overall out /\
  dom (ScoreSmoother.regions out)
  = (if ScoreSmoother.hasData s
     then dom (ScoreSmoother.smoothedRegions s) ∪ dom regionScores
     else dom regionScores).
Proof.
  intros s' out. subst s' out. unfold ScoreSmoother.update.
  destruct (ScoreSmoother.hasData s) eqn:Hd; simpl; rewrite ?Hd;
    repeat split.
  apply set_eq. intros key.
  rewrite elem_of_union, !elem_of_dom, ema_fold_lookup.
  destruct (regionScores !! key), (ScoreSmoother.smoothedRegions s !! key);
    simpl; split; intros H; eauto;
    try (destruct H as [H | H]; eauto; now destruct H).
Qed.

Lemma blend_in_range alpha lo hi v p :
  0 <= alpha <= 1 -> lo <= v <= hi -> lo <= p <= hi ->
  lo <= alpha * v + (1 - alpha) * p <= hi.
Proof. intros Ha Hv Hp. split; nra. Qed.

Lemma update_regions_in_range
    (s : ScoreSmoother.t) (regionScores : gmap string R) (overallScore : R)
    (lo hi : R) :
  0 <= ScoreSmoother.alpha s <= 1 ->
  (forall key v,
     ScoreSmoother.smoothedRegions s !! key = Some v -> lo <= v <= hi) ->
  (forall key v, regionScores !! key = Some v -> lo <= v <= hi) ->
  forall key v,
    ScoreSmoother.regions
      (ScoreSmoother.update s regionScores overallScore).2 !! key = Some v ->
    lo <= v <= hi.
Proof.
  intros Halpha Hstored Hincoming key v. unfold ScoreSmoother.update.
  destruct (ScoreSmoother.hasData s); simpl; [|apply Hincoming].
  rewrite ema_fold_lookup.
  destruct (regionScores !! key) as [w|] eqn:Hin; [|apply Hstored].
  intros [= <-]. pose proof (Hincoming key w Hin).
  apply blend_in_range; try assumption.
  destruct (ScoreSmoother.smoothedRegions s !! key) as [p|] eqn:Hst;
    simpl; [now apply (Hstored key) | assumption].
Qed.

Lemma update_overall_in_range
    (s : ScoreSmoother.t) (regionScores : gmap string R) (overallScore : R)
    (lo hi : R) :
  0 <= ScoreSmoother.alpha s <= 1 ->
  (ScoreSmoother.hasData s = true ->
   lo <= ScoreSmoother.smoothedOverall s <= hi) ->
  lo <= overallScore <= hi ->
  lo <= ScoreSmoother.overall
          (ScoreSmoother.update s regionScores overallScore).2 <= hi.
Proof.
  intros Halpha Hstored Hincoming. unfold ScoreSmoother.update.
  destruct (ScoreSmoother.hasData s); simpl; [|exact Hincoming].
  apply blend_in_range; auto.
Qed.

(** X17: With [alpha] between 0 and 1 smoothing stays within bounds: when the
    values held and the incoming ones lie in an interval, so do the returned
    ones - region scores stay in [0, 1] and the overall score in [0, 100]. *)
Theorem ScoreSmoother_update_in_range
    (s : ScoreSmoother.t) (regionScores : gmap string R) (overallScore : R)
    (lo hi lo' hi' : R)
    (Halpha : 0 <= ScoreSmoother.alpha s <= 1)
    (Hstored : forall key v,
       ScoreSmoother.smoothedRegions s !! key = Some v -> lo <= v <= hi)
    (Hincoming : forall key v, regionScores !! key = Some v -> lo <= v <= hi)
    (Hoverall : ScoreSmoother.hasData s = true ->
                lo' <= ScoreSmoother.smoothedOverall s <= hi')
    (Hincoming' : lo' <= overallScore <= hi') :
  let out := (ScoreSmoother.update s regionScores overallScore).2 in
  (forall key v, ScoreSmoother.regions out !! key = Some v -> lo <= v <= hi) /\
  lo' <= ScoreSmoother.overall out <= hi'.
Proof.
  intros out. subst out. split.
  - now apply update_regions_in_range.
  - now apply update_overall_in_range.
Qed.

Lemma ScoreSmoother_update_in_range_witness :
  let s := ScoreSmoother.mkSmoother {[ "torso"%string := 1 ]} 100 true 0.12 in
  let out := (ScoreSmoother.update s {[ "torso"%string := 0 ]} 0).2 in
  0 <= ScoreSmoother.overall out <= 100.
Proof.
  intros s out.
  apply (ScoreSmoother_update_in_range s {[ "torso"%string := 0 ]} 0 0 1 0 100).
  - simpl. lra.
  - intros key v Hv. unfold s in Hv.
    cbn [ScoreSmoother.smoothedRegions] in Hv.
    apply lookup_singleton_Some in Hv as [_ <-]. lra.
  - intros key v Hv. apply lookup_singleton_Some in Hv as [_ <-]. lra.
  - intros _. simpl. lra.
  - lra.
Defined.

Lemma updateTimes_primed n s regionScores overallScore :
  ScoreSmoother.hasData s = true ->
  ScoreSmoother.hasData (updateTimes n s regionScores overallScore) = true /\
  ScoreSmoother.alpha (updateTimes n s regionScores overallScore)
  = ScoreSmoother.alpha s.
Proof.
  revert s. induction n as [|n IH]; intros s Hd; [now split|].
  cbn [updateTimes].
  destruct (IH (ScoreSmoother.update s regionScores overallScore).1) as [H1 H2].
  { unfold ScoreSmoother.update. now rewrite Hd. }
  split; [exact H1|]. rewrite H2. unfold ScoreSmoother.update. now rewrite Hd.
Qed.

(** X18: Under constant incoming scores a primed smoother closes in
    geometrically: after [n] updates the distance of the overall score, and
    of every region score held from the start, to the incoming value is
    [(1 - alpha) ^ n] times what it was; a region that is not incoming
    keeps its value. *)
Theorem ScoreSmoother_constant_input (n : nat)
    (s : ScoreSmoother.t) (regionScores : gmap string R) (overallScore : R)
    (Hprimed : ScoreSmoother.hasData s = true) :
  let alpha := ScoreSmoother.alpha s in
  let s' := updateTimes n s regionScores overallScore in
  ScoreSmoother.smoothedOverall s' - overallScore
  = (1 - alpha) ^ n * (ScoreSmoother.smoothedOverall s - overallScore) /\
  (forall key value prev,
     regionScores !! key = Some value ->
     ScoreSmoother.smoothedRegions s !! key = Some prev ->
     exists v,
       ScoreSmoother.smoothedRegions s' !! key = Some v /\
       v - value = (1 - alpha) ^ n * (prev - value)) /\
  (forall key,
     regionScores !! key = None ->
     ScoreSmoother.smoothedRegions s' !! key
     = ScoreSmoother.smoothedRegions s !! key).
Proof.
  revert s Hprimed. induction n as [|n IH]; intros s Hprimed alpha s'.
  - subst s'. simpl. split; [ring|]. split; [|reflexivity].
    intros key value prev _ Hst. exists prev. split; [exact Hst | ring].
  - subst s'. cbn [updateTimes].
    set (s1 := (ScoreSmoother.update s regionScores overallScore).1).
    assert (Hs1 : s1 = ScoreSmoother.mkSmoother
                         (map_fold (ScoreSmoother.emaStep alpha)
                            (ScoreSmoother.smoothedRegions s) regionScores)
                         (alpha * overallScore
                          + (1 - alpha) * ScoreSmoother.smoothedOverall s)
                         true alpha).
    { unfold s1, ScoreSmoother.update. rewrite Hprimed. simpl.
      now rewrite ?Hprimed. }
    destruct (IH s1) as (Hov & Hkeys & Hother); [now rewrite Hs1|].
    assert (Ha : ScoreSmoother.alpha s1 = alpha) by now rewrite Hs1.
    rewrite Ha in Hov, Hkeys. split; [|split].
    + rewrite Hov, Hs1. simpl. ring.
    + intros key value prev Hin Hst.
      destruct (Hkeys key value (alpha * value + (1 - alpha) * prev) Hin)
        as (v & Hv & Hdist).
      { rewrite Hs1. simpl. now rewrite ema_fold_lookup, Hin, Hst. }
      exists v. split; [exact Hv|]. rewrite Hdist. simpl. ring.
    + intros key Hin. rewrite (Hother key Hin), Hs1. simpl.
      now rewrite ema_fold_lookup, Hin.
Qed.

Lemma ScoreSmoother_constant_input_witness :
  let s := ScoreSmoother.mkSmoother {[ "torso"%string := 1 ]} 100 true 0.5 in
  ScoreSmoother.smoothedOverall (updateTimes 2 s {[ "torso"%string := 0 ]} 0)
  = 25.
Proof.
  intros s.
  destruct (ScoreSmoother_constant_input 2 s {[ "torso"%string := 0 ]} 0
              eq_refl) as (Hov & _).
  cbv [updateTimes ScoreSmoother.update ScoreSmoother.smoothedOverall
       ScoreSmoother.hasData ScoreSmoother.alpha fst negb s] in Hov |- *.
  simpl in Hov. lra.
Defined.

(** ** SkeletonRenderer: regions and colours *)

Lemma all_below (P : nat -> bool) (n : nat) :
  forallb P (seq 0 n) = true -> forall i, (i < n)%nat -> P i = true.
Proof.
  intros H i Hi. rewrite forallb_forall in H. apply H.
  apply in_seq. lia.
Qed.

(** X19: Joints are coloured by limb: a landmark of the 33-point model is never
    assigned to the torso (only indices past 32 are), and the joint at the
    vertex of every catalog angle is assigned to the region that the angle
    is scored under. *)
Theorem getLandmarkRegion_joints :
  (forall idx, (idx <= 32)%nat ->
     SkeletonRenderer.getLandmarkRegion idx <> "torso"%string) /\
  (forall idx, (32 < idx)%nat ->
     SkeletonRenderer.getLandmarkRegion idx = "torso"%string) /\
  (forall def a b c,
     def ∈ ANGLE_DEFINITIONS -> indices def = (a, b, c) ->
     SkeletonRenderer.getLandmarkRegion b = region_key (def_region def)).
Proof.
  split; [|split].
  - intros idx Hidx.
    pose proof (all_below
                  (fun i => bool_decide (SkeletonRenderer.getLandmarkRegion i
                                         <> "torso"%string)) 33) as H.
    cbv beta in H. specialize (H ltac:(vm_compute; reflexivity) idx ltac:(lia)).
    now apply bool_decide_eq_true in H.
  - intros idx Hidx. unfold SkeletonRenderer.getLandmarkRegion,
      SkeletonRenderer.includes.
    rewrite bool_decide_eq_false_2 by lia.
    rewrite !bool_decide_eq_false_2;
      [reflexivity | ..];
      rewrite !elem_of_cons, elem_of_nil; lia.
  - unfold ANGLE_DEFINITIONS. intros def a b c H.
    repeat (apply elem_of_cons in H as [-> | H]);
      try (now apply elem_of_nil in H);
      cbn [indices]; intros [= <- <- <-]; vm_compute; reflexivity.
Qed.

Lemma getLandmarkRegion_joints_witness :
  SkeletonRenderer.getLandmarkRegion 23 = "leftLeg"%string /\
  SkeletonRenderer.getLandmarkRegion 23 <> "torso"%string.
Proof.
  destruct getLandmarkRegion_joints as (Hnot & _ & Hvertex).
  split.
  - apply (Hvertex (mkAngleDefinition "Left Hip" (11, 23, 25)%nat leftLeg)
             11%nat 23%nat 25%nat); [|reflexivity].
    unfold ANGLE_DEFINITIONS. rewrite !elem_of_cons. tauto.
  - apply Hnot. lia.
Defined.

(** X20: Bones are coloured like their joints: two landmarks of the same limb
    (or both of the face) are joined by a bone of that region, and every
    bone of [POSE_CONNECTIONS] takes the region of its two ends when they
    agree and the torso otherwise - the torso bones are the four between
    shoulders and hips. *)
Theorem getConnectionRegion_bones :
  (forall s e, (s <= 32)%nat -> (e <= 32)%nat ->
     SkeletonRenderer.getLandmarkRegion s = SkeletonRenderer.getLandmarkRegion e ->
     ~ (s ∈ [11; 12; 23; 24]%nat /\ e ∈ [11; 12; 23; 24]%nat) ->
     SkeletonRenderer.getConnectionRegion s e
     = SkeletonRenderer.getLandmarkRegion s) /\
  (forall s e, (s, e) ∈ SkeletonRenderer.POSE_CONNECTIONS ->
     (s < e <= 32)%nat /\
     SkeletonRenderer.getConnectionRegion s e
     = (if decide (SkeletonRenderer.getLandmarkRegion s
                   = SkeletonRenderer.getLandmarkRegion e)
        then SkeletonRenderer.getLandmarkRegion s else "torso"%string) /\
     (SkeletonRenderer.getConnectionRegion s e = "torso"%string
      <-> s ∈ [11; 12; 23; 24]%nat /\ e ∈ [11; 12; 23; 24]%nat)).
Proof.
  split.
  - intros s e Hs He Hsame Hcore.
    set (P := fun s e : nat =>
           bool_decide
             (SkeletonRenderer.getLandmarkRegion s
              = SkeletonRenderer.getLandmarkRegion e ->
              ~ (s ∈ [11; 12; 23; 24]%nat /\ e ∈ [11; 12; 23; 24]%nat) ->
              SkeletonRenderer.getConnectionRegion s e
              = SkeletonRenderer.getLandmarkRegion s)).
    assert (H : forallb (fun s => forallb (P s) (seq 0 33)) (seq 0 33) = true)
      by (vm_compute; reflexivity).
    pose proof (all_below _ 33 H s ltac:(lia)) as Hrow. cbv beta in Hrow.
    pose proof (all_below _ 33 Hrow e ltac:(lia)) as Hcell.
    unfold P in Hcell. apply bool_decide_eq_true in Hcell. auto.
  - intros s e Hin.
    set (Q := fun '(s, e) =>
           bool_decide
             ((s < e <= 32)%nat /\
              SkeletonRenderer.getConnectionRegion s e
              = (if decide (SkeletonRenderer.getLandmarkRegion s
                            = SkeletonRenderer.getLandmarkRegion e)
                 then SkeletonRenderer.getLandmarkRegion s else "torso"%string) /\
              (SkeletonRenderer.getConnectionRegion s e = "torso"%string
               <-> s ∈ [11; 12; 23; 24]%nat /\ e ∈ [11; 12; 23; 24]%nat))).
    assert (H : forallb Q SkeletonRenderer.POSE_CONNECTIONS = true)
      by (vm_compute; reflexivity).
    rewrite forallb_forall in H. specialize (H (s, e)).
    unfold Q in H. apply list_elem_of_In in Hin. apply H in Hin.
    now apply bool_decide_eq_true in Hin.
Qed.

Lemma getConnectionRegion_bones_witness :
  SkeletonRenderer.getConnectionRegion 11 23 = "torso"%string /\
  SkeletonRenderer.getConnectionRegion 13 15 = "leftArm"%string.
Proof.
  destruct getConnectionRegion_bones as [Hsame Hbones]. split.
  - apply (Hbones 11%nat 23%nat).
    + apply (bool_decide_unpack _). vm_compute. exact I.
    + rewrite !elem_of_cons. tauto.
  - rewrite (Hsame 13%nat 15%nat); try lia; try reflexivity.
    rewrite !elem_of_cons, elem_of_nil. intros [[H | [H | [H | [H | H]]]] _];
      try discriminate H; exact H.
Defined.

Lemma regionScores_keys ref usr res k :
  comparePoses ref usr = Some res ->
  is_Some (regionScores res !! k) -> exists r, k = region_key r.
Proof.
  intros Hres [v Hv].
  apply comparePoses_Some_inv in Hres as (_ & _ & Hang & Hagg).
  assert (Hne : angles res <> [])
    by (rewrite Hang; apply collectAngles_nonempty).
  destruct (aggregate_nonempty _ Hne) as (res' & Hagg' & _ & Hreg & _).
  rewrite Hagg in Hagg'. injection Hagg' as <-.
  rewrite Hreg in Hv.
  destruct (decide (filedUnder k (angles res) = [])) as [|Hk]; [discriminate|].
  destruct (filter (fun a => region_key (region a) = k) (angles res))
    as [|e l] eqn:Hf.
  - exfalso. apply Hk. unfold filedUnder. now rewrite Hf.
  - assert (He : e ∈ filter (fun a => region_key (region a) = k) (angles res))
      by (rewrite Hf; apply list_elem_of_here).
    apply list_elem_of_filter in He as [<- _]. eauto.
Qed.

(** ** SkeletonRenderer: the trail buffers *)

(** X22: Each trail buffer holds the pixel positions of the latest frames drawn
    under its id, three at most, the newest last; drawing under one id
    leaves the buffers of the other ids alone. *)
Theorem recordTrail_bounded
    (trailBuffers : gmap string (list (list (R * R))))
    (landmarks : list NormalizedLandmark) (width height : R)
    (trailId : string) :
  let before := nullish (trailBuffers !! trailId) [] in
  let current := (fun lm => (x lm * width, y lm * height)) <$> landmarks in
  let after :=
    SkeletonRenderer.recordTrail trailBuffers landmarks width height trailId in
  (forall other, other <> trailId -> after !! other = trailBuffers !! other) /\
  ((length before <= 3)%nat ->
   after !! trailId = Some (drop (length before - 2) (before ++ [current])) /\
   exists buffer,
     after !! trailId = Some buffer /\
     length buffer = Nat.min (S (length before)) 3 /\
     last buffer = Some current).
Proof.
  intros before current after. subst after.
  unfold SkeletonRenderer.recordTrail. fold current.
  assert (Hbuf : nullish
                   (match trailBuffers !! trailId with
                    | Some _ => trailBuffers
                    | None => <[trailId := []]> trailBuffers
                    end !! trailId) [] = before).
  { unfold before. destruct (trailBuffers !! trailId) eqn:Hb.
    - now rewrite Hb.
    - now rewrite lookup_insert_eq. }
  rewrite Hbuf. split.
  - intros other Hne. rewrite lookup_insert_ne by congruence.
    destruct (trailBuffers !! trailId); [reflexivity|].
    now rewrite lookup_insert_ne by congruence.
  - intros Hlen. rewrite lookup_insert_eq.
    assert (Heq : (if bool_decide
                        (SkeletonRenderer.TRAIL_BUFFER_SIZE
                         < length (before ++ [current]))%nat
                   then tail (before ++ [current]) else before ++ [current])
                  = drop (length before - 2) (before ++ [current])).
    { unfold SkeletonRenderer.TRAIL_BUFFER_SIZE. rewrite length_app. simpl.
      case_bool_decide.
      - replace (length before - 2)%nat with 1%nat by lia.
        now destruct (before ++ [current]).
      - replace (length before - 2)%nat with 0%nat by lia. reflexivity. }
    rewrite Heq. split; [reflexivity|].
    eexists. split; [reflexivity|]. split.
    + rewrite length_drop, length_app. simpl. lia.
    + rewrite drop_app_le by lia. apply last_snoc.
Qed.

Lemma recordTrail_bounded_witness :
  let frame := [(0, 0)] in
  let buffers : gmap string (list (list (R * R))) :=
    {[ "camera"%string := [frame; frame; frame] ]} in
  exists buffer,
    SkeletonRenderer.recordTrail buffers [] 640 480 "camera" !! "camera"%string
    = Some buffer /\ length buffer = 3%nat.
Proof.
  intros frame buffers.
  destruct (recordTrail_bounded buffers [] 640 480 "camera"%string)
    as [_ H].
  destruct H as (_ & buffer & Hb & Hlen & _).
  - unfold buffers. rewrite lookup_singleton_eq. simpl. lia.
  - exists buffer. split; [exact Hb|]. rewrite Hlen.
    unfold buffers. rewrite lookup_singleton_eq. reflexivity.
Defined.

(** ** CameraFeed: the frame loop *)

Lemma nextTimestamp_after now lastTimestamp :
  lastTimestamp < CameraFeed.nextTimestamp now lastTimestamp /\
  now <= CameraFeed.nextTimestamp now lastTimestamp.
Proof. unfold CameraFeed.nextTimestamp. case_decide; lra. Qed.

Lemma timestamps_after lastTimestamp nows i t :
  timestamps lastTimestamp nows !! i = Some t -> lastTimestamp < t.
Proof.
  revert lastTimestamp i. induction nows as [|now nows IH];
    intros lastTimestamp i; [discriminate|].
  pose proof (nextTimestamp_after now lastTimestamp) as [Hlt _].
  destruct i as [|i]; simpl.
  - intros [= <-]. exact Hlt.
  - intros H. apply IH in H. lra.
Qed.

(** X23: The detector never sees a timestamp twice or out of order: whatever the
    clock reads, even if it stalls or steps back, the timestamps of
    successive frames strictly increase, and none is earlier than the clock
    reading of its frame. *)
Theorem timestamps_strictly_increase (lastTimestamp : R) (nows : list R) :
  let ts := timestamps lastTimestamp nows in
  length ts = length nows /\
  (forall i t, ts !! i = Some t -> lastTimestamp < t) /\
  (forall i j a b, (i < j)%nat ->
     ts !! i = Some a -> ts !! j = Some b -> a < b) /\
  (forall i now t, nows !! i = Some now -> ts !! i = Some t -> now <= t).
Proof.
  intros ts. subst ts. split; [|split; [|split]].
  - revert lastTimestamp. induction nows as [|now nows IH];
      intros lastTimestamp; [reflexivity|]. simpl. now rewrite IH.
  - intros i t. apply timestamps_after.
  - revert lastTimestamp. induction nows as [|now nows IH];
      intros lastTimestamp i j a b Hij; [discriminate|].
    destruct j as [|j]; [lia|]. destruct i as [|i]; simpl.
    + intros [= <-] Hb. now apply timestamps_after in Hb.
    + apply IH. lia.
  - revert lastTimestamp. induction nows as [|now nows IH];
      intros lastTimestamp i n t; [discriminate|].
    destruct i as [|i]; simpl.
    + intros [= <-] [= <-]. apply nextTimestamp_after.
    + apply IH.
Qed.

Lemma nondecreasing_snoc l x :
  nondecreasing (l ++ [x]) ->
  nondecreasing l /\ (forall m, last l = Some m -> m <= x).
Proof.
  intros H. split.
  - intros i j a b Hij Ha Hb. apply (H i j); try assumption.
    + rewrite lookup_app_l; [exact Ha | now apply lookup_lt_Some in Ha].
    + rewrite lookup_app_l; [exact Hb | now apply lookup_lt_Some in Hb].
  - intros m Hm. rewrite last_lookup in Hm.
    assert (Hlt : (pred (length l) < length l)%nat)
      by now apply lookup_lt_Some in Hm.
    apply (H (pred (length l)) (length l)); [lia | |].
    + now rewrite lookup_app_l.
    + apply list_lookup_middle. reflexivity.
Qed.

Lemma fps_fold nows :
  nondecreasing nows ->
  fold_left CameraFeed.fpsUpdate nows []
  = match last nows with
    | Some now => filter (fun t => now - 1000 < t) nows
    | None => []
    end.
Proof.
  induction nows as [|x l IH] using rev_ind; intros Hnd; [reflexivity|].
  apply nondecreasing_snoc in Hnd as [Hnd Hlast].
  rewrite fold_left_app, last_snoc, (IH Hnd). simpl.
  unfold CameraFeed.fpsUpdate. rewrite !filter_app. f_equal.
  destruct (last l) as [m|] eqn:Hm.
  - apply list_filter_filter_l. intros t Ht.
    specialize (Hlast m eq_refl). lra.
  - apply last_None in Hm. now subst l.
Qed.

(** X24: The frame rate is the number of frames of the last second: with a clock
    that never goes back, the window held after a frame is exactly the clock
    readings of all frames so far that are less than 1000 ms old; the frame
    itself is among them, so the reported rate is at least 1. *)
Theorem fps_counts_last_second (nows : list R) (now : R)
    (Hclock : nondecreasing (nows ++ [now])) :
  let fpsFrames := fold_left CameraFeed.fpsUpdate (nows ++ [now]) [] in
  fpsFrames = filter (fun t => now - 1000 < t) (nows ++ [now]) /\
  last fpsFrames = Some now /\
  (1 <= length fpsFrames)%nat.
Proof.
  intros fpsFrames. subst fpsFrames.
  rewrite (fps_fold _ Hclock), last_snoc.
  rewrite filter_app, (filter_cons_True _ now) by lra.
  rewrite filter_nil. split; [reflexivity|]. split.
  - apply last_snoc.
  - rewrite length_app. simpl. lia.
Qed.

Lemma fps_counts_last_second_witness :
  fold_left CameraFeed.fpsUpdate ([0; 500] ++ [1200]) [] = [500; 1200].
Proof.
  assert (Hclock : nondecreasing ([0; 500] ++ [1200])).
  { intros i j a b Hij Ha Hb.
    destruct i as [|[|[|i]]], j as [|[|[|j]]]; simpl in Ha, Hb;
      try discriminate; try lia;
      injection Ha as <-; injection Hb as <-; lra. }
  destruct (fps_counts_last_second [0; 500] 1200 Hclock) as (-> & _).
  simpl. rewrite filter_cons_False, !filter_cons_True by lra.
  reflexivity.
Defined.

(** *** One frame of the detection loop *)

Lemma smooth_result s landmarks :
  exists s' smoothed,
    LandmarkSmoother.smooth s landmarks = Some (s', smoothed) /\
    length smoothed = length landmarks /\
    LandmarkSmoother.alpha s' = LandmarkSmoother.alpha s.
Proof.
  destruct (LandmarkSmoother.previous s) as [prev|] eqn:Hprev.
  - destruct (decide (length prev = length landmarks)) as [Hlen | Hlen].
    + eexists _, _.
      split; [exact (smooth_subsequent_call s prev landmarks Hprev Hlen)|].
      split; [now apply length_zip_with_l_eq | reflexivity].
    + eexists _, _. split; [now apply smooth_length_changed with prev|].
      now split.
  - eexists _, _. split; [now apply smooth_first_call|]. now split.
Qed.

Lemma comparePoses_scores_bounded ref usr res :
  comparePoses ref usr = Some res ->
  0 <= overallScore res <= 100 /\
  (forall k v, regionScores res !! k = Some v ->
               0 <= v <= 1 /\ exists r, k = region_key r).
Proof.
  intros Hres.
  pose proof (comparePoses_Some_inv _ _ _ Hres) as (_ & _ & Hang & Hagg).
  destruct (aggregate_bounds 0 1 _ _ Hagg) as [Hov Hreg].
  { intros e He. rewrite Hang in He.
    now apply consistent_bounds, collectAngles_consistent with ref usr. }
  split; [lra|]. intros k v Hk. split; [now apply (Hreg k)|].
  apply (regionScores_keys ref usr res k Hres). eauto.
Qed.

(** What the loop does with a frame, case by case. *)
Lemma processFrame_cases st refLm detected :
  (exists st' smoothed raw rest ref c,
     detected = Some (raw :: rest) /\ refLm = Some ref /\
     LandmarkSmoother.smooth (CameraFeed.landmarkSmoother st) raw
     = Some (CameraFeed.landmarkSmoother st', smoothed) /\
     length smoothed = length raw /\
     comparePoses ref smoothed = Some c /\
     CameraFeed.scoreSmoother st'
     = (ScoreSmoother.update (CameraFeed.scoreSmoother st)
          (regionScores c) (overallScore c)).1 /\
     CameraFeed.processFrame st refLm detected
     = Some (st',
             CameraFeed.mkFrameOutput
               (Some (mkResult (angles c)
                        (ScoreSmoother.smoothedOverall
                           (CameraFeed.scoreSmoother st'))
                        (ScoreSmoother.smoothedRegions
                           (CameraFeed.scoreSmoother st'))))
               (Some (ScoreSmoother.smoothedRegions
                        (CameraFeed.scoreSmoother st'))))) \/
  (exists st',
     CameraFeed.processFrame st refLm detected
     = Some (st', CameraFeed.mkFrameOutput None None) /\
     CameraFeed.scoreSmoother st' = CameraFeed.scoreSmoother st /\
     LandmarkSmoother.alpha (CameraFeed.landmarkSmoother st')
     = LandmarkSmoother.alpha (CameraFeed.landmarkSmoother st) /\
     ~ (exists raw rest ref,
          detected = Some (raw :: rest) /\ refLm = Some ref /\
          (33 <= length ref)%nat /\ (33 <= length raw)%nat)).
Proof.
  unfold CameraFeed.processFrame.
  destruct detected as [[|raw rest]|].
  - right. exists st. repeat split. intros (? & ? & ? & [=] & _).
  - destruct (smooth_result (CameraFeed.landmarkSmoother st) raw)
      as (ls & smoothed & Hsm & Hlen & Ha).
    rewrite Hsm. destruct refLm as [ref|].
    + destruct (comparePoses ref smoothed) as [c|] eqn:Hc.
      * left. eexists (CameraFeed.mkSmoothers ls _), smoothed, raw, rest, ref, c.
        repeat split; try eassumption; reflexivity.
      * right. eexists. repeat split; [exact Ha|].
        intros (raw' & rest' & ref' & [= <- <-] & [= <-] & Hr & Hu).
        apply comparePoses_None_iff in Hc. lia.
    + right. eexists. repeat split; [exact Ha|].
      intros (? & ? & ? & _ & [=] & _).
  - right. exists st. repeat split. intros (? & ? & ? & [=] & _).
Qed.

(** X25: A frame never faults, and it reports a comparison exactly when a pose
    was detected, a reference is at hand, and both sets have at least 33
    landmarks.  The reported entries are those of [comparePoses] on the
    reference and the smoothed live set; the reported scores are the
    smoothed ones, which are also the ones drawn.  A frame without
    comparison leaves the score smoother untouched. *)
Theorem processFrame_reports
    (st : CameraFeed.Smoothers) (refLm : option (list NormalizedLandmark))
    (detected : option (list (list NormalizedLandmark))) :
  exists st' out,
    CameraFeed.processFrame st refLm detected = Some (st', out) /\
    (is_Some (CameraFeed.comparisonUpdate out)
     <-> exists raw rest ref,
           detected = Some (raw :: rest) /\ refLm = Some ref /\
           (33 <= length ref)%nat /\ (33 <= length raw)%nat) /\
    (forall res, CameraFeed.comparisonUpdate out = Some res ->
       CameraFeed.drawnScores out = Some (regionScores res) /\
       regionScores res
       = ScoreSmoother.smoothedRegions (CameraFeed.scoreSmoother st') /\
       overallScore res
       = ScoreSmoother.smoothedOverall (CameraFeed.scoreSmoother st') /\
       exists raw rest ref smoothed c,
         detected = Some (raw :: rest) /\ refLm = Some ref /\
         LandmarkSmoother.smooth (CameraFeed.landmarkSmoother st) raw
         = Some (CameraFeed.landmarkSmoother st', smoothed) /\
         comparePoses ref smoothed = Some c /\ angles res = angles c) /\
    (CameraFeed.comparisonUpdate out = None ->
     CameraFeed.scoreSmoother st' = CameraFeed.scoreSmoother st).
Proof.
  destruct (processFrame_cases st refLm detected)
    as [(st' & smoothed & raw & rest & ref & c & Hd & Hr & Hsm & Hlen & Hc
         & Hss & Hpf)
       | (st' & Hpf & Hss & _ & Hnot)].
  - eexists _, _. split; [exact Hpf|]. cbn [CameraFeed.comparisonUpdate
      CameraFeed.drawnScores]. split; [|split].
    + split; [|eauto]. intros _. exists raw, rest, ref.
      apply comparePoses_Some_inv in Hc as (? & ? & _).
      repeat split; try assumption; lia.
    + intros res [= <-]. cbn [regionScores overallScore angles].
      repeat split. exists raw, rest, ref, smoothed, c. now repeat split.
    + discriminate.
  - eexists _, _. split; [exact Hpf|]. cbn [CameraFeed.comparisonUpdate
      CameraFeed.drawnScores]. split; [|split].
    + split; [intros [? [=]] | intros H; now apply Hnot in H].
    + discriminate.
    + intros _. exact Hss.
Qed.

Lemma update_stores_output s regionScores overallScore :
  let s' := (ScoreSmoother.update s regionScores overallScore).1 in
  let out := (ScoreSmoother.update s regionScores overallScore).2 in
  ScoreSmoother.smoothedRegions s' = ScoreSmoother.regions out /\
  ScoreSmoother.smoothedOverall s' = ScoreSmoother.overall out /\
  ScoreSmoother.alpha s' = ScoreSmoother.alpha s /\
  ScoreSmoother.hasData s' = true.
Proof.
  unfold ScoreSmoother.update.
  destruct (ScoreSmoother.hasData s) eqn:Hd; simpl; rewrite ?Hd; now repeat split.
Qed.

Lemma update_key_origin s regionScores overallScore key :
  is_Some (ScoreSmoother.regions
             (ScoreSmoother.update s regionScores overallScore).2 !! key) ->
  is_Some (regionScores !! key) \/
  is_Some (ScoreSmoother.smoothedRegions s !! key).
Proof.
  unfold ScoreSmoother.update.
  destruct (ScoreSmoother.hasData s); simpl; [|now left].
  rewrite ema_fold_lookup.
  destruct (regionScores !! key); [left; eauto | now right].
Qed.

Lemma reachable_invariant st : reachable st -> sessionInvariant st.
Proof.
  induction 1 as [|st Hst IH|st refLm detected st' out Hst IH Hpf].
  - unfold sessionInvariant, CameraFeed.initial. simpl.
    repeat split; try discriminate; intros key v Hv;
      now rewrite lookup_empty in Hv.
  - destruct IH as (Hla & Hsa & _). unfold sessionInvariant, CameraFeed.stop.
    simpl. repeat split; try assumption; try discriminate;
      intros key v Hv; now rewrite lookup_empty in Hv.
  - destruct IH as (Hla & Hsa & Hreg & Hov).
    destruct (processFrame_cases st refLm detected)
      as [(st1 & smoothed & raw & rest & ref & c & Hd & Hr & Hsm & Hlen & Hc
           & Hss & Hpf1)
         | (st1 & Hpf1 & Hss & Hal & _)];
      rewrite Hpf in Hpf1; injection Hpf1 as <- _.
    + destruct (smooth_result (CameraFeed.landmarkSmoother st) raw)
        as (ls & sm & Hsm' & _ & Hls).
      rewrite Hsm in Hsm'. injection Hsm' as <- _.
      destruct (comparePoses_scores_bounded _ _ _ Hc) as [Hcov Hcreg].
      destruct (update_stores_output (CameraFeed.scoreSmoother st)
                  (regionScores c) (overallScore c))
        as (Hsr & Hso & Hsal & Hsd).
      assert (Halpha : 0 <= ScoreSmoother.alpha (CameraFeed.scoreSmoother st) <= 1)
        by (rewrite Hsa; lra).
      pose proof (update_regions_in_range (CameraFeed.scoreSmoother st)
                    (regionScores c) (overallScore c) 0 1 Halpha
                    (fun k v Hv => proj1 (Hreg k v Hv))
                    (fun k v Hv => proj1 (Hcreg k v Hv))) as Hr1.
      pose proof (update_overall_in_range (CameraFeed.scoreSmoother st)
                    (regionScores c) (overallScore c) 0 100 Halpha Hov Hcov)
        as Hr2.
      unfold sessionInvariant. rewrite Hss, Hls, Hsr, Hso, Hsal.
      split; [exact Hla|]. split; [exact Hsa|]. split; [|intros _; exact Hr2].
      intros k v Hv. split; [now apply (Hr1 k)|].
      destruct (update_key_origin (CameraFeed.scoreSmoother st)
                  (regionScores c) (overallScore c) k) as [[w Hw] | [w Hw]];
        [eauto | now apply (Hcreg k w) | now apply (Hreg k w)].
    + unfold sessionInvariant. rewrite Hss, Hal. auto.
Qed.

(** X26: Throughout a session - from the initial smoothers, through any frames
    and stops - every reported comparison carries an overall score between
    0 and 100 and region scores between 0 and 1, filed under the five
    regions only. *)
Theorem processFrame_session_bounds
    (st st' : CameraFeed.Smoothers)
    (refLm : option (list NormalizedLandmark))
    (detected : option (list (list NormalizedLandmark)))
    (out : CameraFeed.FrameOutput) (res : PoseComparisonResult)
    (Hst : reachable st)
    (Hframe : CameraFeed.processFrame st refLm detected = Some (st', out))
    (Hres : CameraFeed.comparisonUpdate out = Some res) :
  0 <= overallScore res <= 100 /\
  (forall key v, regionScores res !! key = Some v ->
                 0 <= v <= 1 /\ exists r, key = region_key r).
Proof.
  assert (Hinv : sessionInvariant st')
    by (apply reachable_invariant; now apply reachable_frame with st refLm detected out).
  destruct Hinv as (_ & _ & Hreg & Hov).
  destruct (processFrame_cases st refLm detected)
    as [(st1 & smoothed & raw & rest & ref & c & Hd & Hr & Hsm & Hlen & Hc
         & Hss & Hpf1)
       | (st1 & Hpf1 & _)];
    rewrite Hframe in Hpf1; injection Hpf1 as <- ->;
    cbn [CameraFeed.comparisonUpdate] in Hres; [|discriminate].
  injection Hres as <-. cbn [overallScore regionScores].
  split; [|exact Hreg]. apply Hov. rewrite Hss.
  unfold ScoreSmoother.update.
  now destruct (ScoreSmoother.hasData (CameraFeed.scoreSmoother st)).
Qed.

Lemma processFrame_session_bounds_witness :
  exists st' out res,
    CameraFeed.processFrame CameraFeed.initial (Some (uprightPose 1))
      (Some [uprightPose 1]) = Some (st', out) /\
    CameraFeed.comparisonUpdate out = Some res /\
    0 <= overallScore res <= 100.
Proof.
  destruct (processFrame_cases CameraFeed.initial (Some (uprightPose 1))
              (Some [uprightPose 1]))
    as [(st' & smoothed & raw & rest & ref & c & _ & _ & _ & _ & _ & _ & Hpf)
       | (st' & _ & _ & _ & Hnot)].
  - eexists _, _, _. split; [exact Hpf|]. split; [reflexivity|].
    eapply (processFrame_session_bounds _ _ _ _ _ _ reachable_initial Hpf).
    reflexivity.
  - exfalso. apply Hnot. exists (uprightPose 1), [], (uprightPose 1).
    rewrite length_uprightPose. repeat split; lia.
Defined.

(** X27: The first frame after a stop is not smoothed at all: whatever the
    smoothers held, it reports exactly what [comparePoses] gives for the
    reference and the raw detected set, and draws with those region
    scores. *)
Theorem processFrame_after_stop
    (st : CameraFeed.Smoothers) (refLm : option (list NormalizedLandmark))
    (raw : list NormalizedLandmark) (rest : list (list NormalizedLandmark)) :
  exists st',
    CameraFeed.processFrame (CameraFeed.stop st) refLm (Some (raw :: rest))
    = Some (st',
            CameraFeed.mkFrameOutput
              (match refLm with
               | Some ref => comparePoses ref raw
               | None => None
               end)
              (match refLm with
               | Some ref => regionScores <$> comparePoses ref raw
               | None => None
               end)) /\
    LandmarkSmoother.previous (CameraFeed.landmarkSmoother st') = Some raw.
Proof.
  unfold CameraFeed.processFrame, CameraFeed.stop.
  cbn [CameraFeed.landmarkSmoother CameraFeed.scoreSmoother].
  rewrite smooth_first_call by reflexivity.
  destruct refLm as [ref|]; [|eexists; split; reflexivity].
  destruct (comparePoses ref raw) as [c|]; [|eexists; split; reflexivity].
  destruct c as [a o r]. eexists. split; reflexivity.
Qed.

(** ** App: the displayed score *)

(** X28: The displayed score follows its target without overshooting: it is
    cleared when there is no target, jumps to the first target, and then
    closes 15% of the remaining gap per turn - after [n] turns the gap is
    [0.85 ^ n] times what it was, and the value lies between where it
    started and the target. *)
Theorem lerpLoop_converges :
  (forall current, App.lerpLoop None current = None) /\
  (forall target, App.lerpLoop (Some target) None = Some target) /\
  (forall n target current,
     exists v,
       lerpTimes n (Some target) (Some current) = Some v /\
       v - target = 0.85 ^ n * (current - target) /\
       Rmin current target <= v <= Rmax current target).
Proof.
  split; [reflexivity|]. split; [reflexivity|].
  intros n target. induction n as [|n IH]; intros current.
  - exists current. split; [reflexivity|]. split; [simpl; ring|].
    split; [apply Rmin_l | apply Rmax_l].
  - cbn [lerpTimes App.lerpLoop].
    destruct (IH (current + (target - current) * 0.15)) as (v & Hv & Hgap & Hb).
    exists v. split; [exact Hv|]. split; [rewrite Hgap; simpl; lra|].
    unfold Rmin, Rmax in *.
    destruct (Rle_dec (current + (target - current) * 0.15) target),
             (Rle_dec current target); lra.
Qed.

Lemma timestamps_strictly_increase_witness :
  exists a b,
    timestamps 0 [16; 16; 10; 40] !! 1%nat = Some a /\
    timestamps 0 [16; 16; 10; 40] !! 2%nat = Some b /\
    16 < a < b.
Proof.
  eexists _, _. split; [reflexivity|]. split; [reflexivity|].
  destruct (timestamps_strictly_increase 0 [16; 16; 10; 40])
    as (_ & _ & Hinc & _).
  split.
  - apply (Hinc 0%nat 1%nat); [lia | | reflexivity].
    simpl. unfold CameraFeed.nextTimestamp. now rewrite decide_True by lra.
  - apply (Hinc 1%nat 2%nat); [lia | reflexivity | reflexivity].
Defined.

Lemma processFrame_reports_witness :
  exists st' out,
    CameraFeed.processFrame CameraFeed.initial None (Some [uprightPose 1])
    = Some (st', out) /\
    CameraFeed.comparisonUpdate out = None /\
    CameraFeed.scoreSmoother st' = ScoreSmoother.new 0.12.
Proof.
  destruct (processFrame_reports CameraFeed.initial None (Some [uprightPose 1]))
    as (st' & out & Hpf & Hiff & _ & Hnone).
  assert (Hno : CameraFeed.comparisonUpdate out = None).
  { destruct (CameraFeed.comparisonUpdate out) as [res|] eqn:Hout;
      [|reflexivity].
    destruct (proj1 Hiff) as (? & ? & ? & _ & Hr & _); [eauto|].
    discriminate Hr. }
  exists st', out. split; [exact Hpf|]. split; [exact Hno|].
  now apply Hnone.
Defined.

(** ** Colours of a session *)



